(** * Structural diff of Kubernetes manifests: a shallow embedding of
      [diff_k8s_manifests.py] and the properties of its tree differ.

    The Python functions [compare_state_dicts], [compare_state_lists] and
    [check_mismatches] are translated to Rocq functions over a tagged value
    type.  Python dictionaries keep their insertion order, and the order in
    which the differ walks them decides the order of the change records, so a
    dictionary is an association list whose keys are pairwise distinct.
    Exceptions are results of their own: every function that can raise
    returns a [result]. *)

From Stdlib Require Import List String Ascii ZArith Lia Bool Arith.
From Stdlib Require Import DecimalString Permutation.
Import ListNotations.

Set Implicit Arguments.
Local Open Scope string_scope.

(** ** Scalars and document trees *)

(** The scalars a YAML document yields.  Numbers are integers here: the
    floating-point numbers of Python are outside this model, and with them
    the value NaN, the one scalar that Python's [!=] tells apart from
    itself.  Every statement below is about trees whose scalars are null,
    booleans, integers and strings. *)
Inductive scalar : Type :=
| SNone
| SBool (b : bool)
| SInt (z : Z)
| SStr (s : string).

(** Python's [==] on scalars: [True == 1] and [False == 0] hold, a string is
    only equal to a string and [None] only to [None]. *)
Definition scalar_eqb (a b : scalar) : bool :=
  match a, b with
  | SNone, SNone => true
  | SBool x, SBool y => Bool.eqb x y
  | SInt x, SInt y => Z.eqb x y
  | SBool x, SInt y => Z.eqb (Z.b2z x) y
  | SInt x, SBool y => Z.eqb x (Z.b2z y)
  | SStr x, SStr y => String.eqb x y
  | _, _ => false
  end.

(** Python's [str()] on scalars, as an f-string applies it. *)
Definition py_str (a : scalar) : string :=
  match a with
  | SNone => "None"
  | SBool true => "True"
  | SBool false => "False"
  | SInt z => NilZero.string_of_int (Z.to_int z)
  | SStr s => s
  end.

#[warnings="-register-all"]
Inductive value : Type :=
| VScalar (s : scalar)
| VDict (items : list (string * value))
| VList (elems : list value).

(** A mapping of a document: keys are strings, in insertion order. *)
Definition mapping : Type := list (string * value).
Bind Scope list_scope with mapping.

(** ** Dictionary operations *)

Section Assoc.
Variable V : Type.

(** [d.get(key)], with [None] for a missing key. *)
Fixpoint lookup (key : string) (d : list (string * V)) : option V :=
  match d with
  | [] => None
  | (k, v) :: rest => if String.eqb key k then Some v else lookup key rest
  end.

(** [key in d] *)
Definition in_dict (key : string) (d : list (string * V)) : bool :=
  match lookup key d with Some _ => true | None => false end.

(** [d[key] = v]: a key that is present keeps its place. *)
Fixpoint dict_set (key : string) (v : V) (d : list (string * V))
  : list (string * V) :=
  match d with
  | [] => [(key, v)]
  | (k, w) :: rest =>
      if String.eqb key k then (k, v) :: rest
      else (k, w) :: dict_set key v rest
  end.

(** The keys of an association list are pairwise distinct. *)
Fixpoint unique_keys (d : list (string * V)) : bool :=
  match d with
  | [] => true
  | (k, _) :: rest => negb (in_dict k rest) && unique_keys rest
  end.
End Assoc.

(** Python's [==] on values: dictionaries compare as sets of items, lists
    element by element. *)
Fixpoint value_eqb (a b : value) : bool :=
  match a, b with
  | VScalar x, VScalar y => scalar_eqb x y
  | VDict m, VDict m' =>
      Nat.eqb (List.length m) (List.length m') &&
      (fix items_eqb (l : list (string * value)) : bool :=
         match l with
         | [] => true
         | (k, v) :: rest =>
             match lookup k m' with
             | Some v' => value_eqb v v' && items_eqb rest
             | None => false
             end
         end) m
  | VList l, VList l' =>
      (fix elems_eqb (l l' : list value) : bool :=
         match l, l' with
         | [], [] => true
         | x :: r, y :: r' => value_eqb x y && elems_eqb r r'
         | _, _ => false
         end) l l'
  | _, _ => false
  end.

Definition dict_eqb (m m' : mapping) : bool := value_eqb (VDict m) (VDict m').

(** A well-formed document tree: every mapping has pairwise distinct keys. *)
Fixpoint wf_value (v : value) : bool :=
  match v with
  | VScalar _ => true
  | VDict m =>
      unique_keys m &&
      (fix wf_items (l : list (string * value)) : bool :=
         match l with
         | [] => true
         | (_, w) :: rest => wf_value w && wf_items rest
         end) m
  | VList l =>
      (fix wf_elems (l : list value) : bool :=
         match l with
         | [] => true
         | w :: rest => wf_value w && wf_elems rest
         end) l
  end.

Definition wf_mapping (m : mapping) : bool := wf_value (VDict m).

(** Nesting depth, the measure on which the differ's recursion descends. *)
Fixpoint depth (v : value) : nat :=
  match v with
  | VScalar _ => 0
  | VDict m =>
      (fix depth_items (l : list (string * value)) : nat :=
         match l with
         | [] => 0
         | (_, w) :: rest => Nat.max (S (depth w)) (depth_items rest)
         end) m
  | VList l =>
      (fix depth_elems (l : list value) : nat :=
         match l with
         | [] => 0
         | w :: rest => Nat.max (S (depth w)) (depth_elems rest)
         end) l
  end.

Definition depth_m (m : mapping) : nat := depth (VDict m).

(** ** Results and exceptions *)

Inductive py_error : Type :=
| TypeError
| KeyError
| IndexError
| AttributeError.

Inductive result (A : Type) : Type :=
| Ret (a : A)
| Raise (e : py_error)
| OutOfFuel.

Arguments Raise {A} e.
Arguments OutOfFuel {A}.

Definition bind {A B : Type} (r : result A) (f : A -> result B) : result B :=
  match r with
  | Ret a => f a
  | Raise e => Raise e
  | OutOfFuel => OutOfFuel
  end.

Notation "x <- c1 ;; c2" := (bind c1 (fun x => c2))
  (at level 61, c1 at next level, right associativity).

(** A [for] loop whose body may raise, threading the accumulator. *)
Fixpoint for_each {A B : Type} (body : B -> A -> result B) (l : list A) (acc : B)
  : result B :=
  match l with
  | [] => Ret acc
  | x :: rest => acc' <- body acc x ;; for_each body rest acc'
  end.

(** ** Change records and diff results *)

(** A change record is a Python dictionary with the key ["path"] and some of
    ["old_value"], ["new_value"] and ["message"]. *)
Record change_record : Type := mk_record {
  path : string;
  old_value : option value;
  new_value : option value;
  message : option string
}.

Definition removed_record (p : string) (v : value) : change_record :=
  mk_record p (Some v) None None.
Definition added_record (p : string) (v : value) : change_record :=
  mk_record p None (Some v) None.
Definition changed_record (p : string) (o n : value) : change_record :=
  mk_record p (Some o) (Some n) None.
Definition message_record (p : string) (msg : string) : change_record :=
  mk_record p None None (Some msg).

Record diff : Type := mk_diff {
  removed : list change_record;
  added : list change_record;
  changed : list change_record
}.

Definition empty_diff : diff := mk_diff [] [] [].

Definition append_removed (d : diff) (r : change_record) : diff :=
  mk_diff (removed d ++ [r]) (added d) (changed d).
Definition append_added (d : diff) (r : change_record) : diff :=
  mk_diff (removed d) (added d ++ [r]) (changed d).
Definition append_changed (d : diff) (r : change_record) : diff :=
  mk_diff (removed d) (added d) (changed d ++ [r]).

(** The three [extend] calls that merge a sub-diff. *)
Definition extend (d sub : diff) : diff :=
  mk_diff (removed d ++ removed sub) (added d ++ added sub)
          (changed d ++ changed sub).

(** [diff["added"].extend(sub_diff["added"])] alone. *)
Definition extend_added (d sub : diff) : diff :=
  mk_diff (removed d) (added d ++ added sub) (changed d).

(** ** Paths *)

(** [f"{path}.{key}" if path else key] *)
Definition key_path (p key : string) : string :=
  match p with
  | EmptyString => key
  | _ => p ++ "." ++ key
  end.

(** [f"{path}[{key}]"] *)
Definition elem_path (p : string) (key : scalar) : string :=
  p ++ "[" ++ py_str key ++ "]".

(** ** The sequence differ's identity key and its dictionaries *)

(** ["name" in first]: key membership on a dictionary, element membership on
    a list, substring test on a string, a [TypeError] on any other scalar. *)
Definition contains_name (first : value) : result bool :=
  match first with
  | VDict m => Ret (in_dict "name" m)
  | VList l => Ret (existsb (value_eqb (VScalar (SStr "name"))) l)
  | VScalar (SStr s) =>
      Ret (match String.index 0 "name" s with Some _ => true | None => false end)
  | VScalar _ => Raise TypeError
  end.

(** [list(first.keys())[0]] *)
Definition first_key (first : value) : result string :=
  match first with
  | VDict [] => Raise IndexError
  | VDict ((k, _) :: _) => Ret k
  | _ => Raise AttributeError
  end.

(** ["name" if "name" in current_state[0] else list(current_state[0].keys())[0]] *)
Definition select_unique_key (first : value) : result string :=
  has_name <- contains_name first ;;
  if has_name then Ret "name" else first_key first.

(** [item[unique_key]] used as a dictionary key: the item has to be a
    dictionary holding the key ([KeyError] otherwise) and the value has to be
    hashable, that is a scalar. *)
Definition item_key (unique_key : string) (item : value)
  : result (scalar * mapping) :=
  match item with
  | VDict m =>
      match lookup unique_key m with
      | None => Raise KeyError
      | Some (VScalar k) => Ret (k, m)
      | Some _ => Raise TypeError
      end
  | _ => Raise TypeError
  end.

(** The dictionaries [{item[unique_key]: item for item in ...}], keyed by
    scalars under Python's equality. *)
Definition state_dict : Type := list (scalar * mapping).

Fixpoint sd_get (key : scalar) (d : state_dict) : option mapping :=
  match d with
  | [] => None
  | (k, m) :: rest => if scalar_eqb key k then Some m else sd_get key rest
  end.

Definition sd_mem (key : scalar) (d : state_dict) : bool :=
  match sd_get key d with Some _ => true | None => false end.

(** Setting a key that is present keeps the first key object and its place,
    and replaces the item. *)
Fixpoint sd_set (key : scalar) (item : mapping) (d : state_dict) : state_dict :=
  match d with
  | [] => [(key, item)]
  | (k, m) :: rest =>
      if scalar_eqb key k then (k, item) :: rest
      else (k, m) :: sd_set key item rest
  end.

Definition build_state_dict (unique_key : string) (items : list value)
  : result state_dict :=
  for_each (fun d item =>
              km <- item_key unique_key item ;;
              Ret (sd_set (fst km) (snd km) d))
           items [].

(** ** The two differs *)

Section Differ.

(** The recursive call to [compare_state_dicts]. *)
Variable self : mapping -> mapping -> string -> result diff.

(** Body of [for key in current_state_dict: if key not in desired_state_dict]. *)
Definition removed_item_step (p : string) (desired_state_dict : state_dict)
  (d : diff) (entry : scalar * mapping) : diff :=
  let (key, item) := entry in
  if negb (sd_mem key desired_state_dict)
  then append_removed d (removed_record (elem_path p key) (VDict item))
  else d.

(** Body of [for key in desired_state_dict: if key not in current_state_dict]. *)
Definition added_item_step (p : string) (current_state_dict : state_dict)
  (d : diff) (entry : scalar * mapping) : diff :=
  let (key, item) := entry in
  if negb (sd_mem key current_state_dict)
  then append_added d (added_record (elem_path p key) (VDict item))
  else d.

(** Body of the third loop: items present on both sides that differ. *)
Definition changed_item_step (p : string) (desired_state_dict : state_dict)
  (d : diff) (entry : scalar * mapping) : result diff :=
  let (key, item) := entry in
  match sd_get key desired_state_dict with
  | Some desired_item =>
      if negb (dict_eqb item desired_item)
      then sub_diff <- self item desired_item (elem_path p key) ;;
           Ret (extend d sub_diff)
      else Ret d
  | None => Ret d
  end.

Definition compare_state_lists_body
  (current_state desired_state : list value) (p : string) : result diff :=
  let diff0 := empty_diff in
  match current_state with
  | [] =>
      Ret (append_removed diff0 (message_record p "Current state list is empty"))
  | first :: _ =>
      match desired_state with
      | [] =>
          Ret (append_added diff0
                 (message_record p "Desired state list is empty"))
      | _ :: _ =>
          unique_key <- select_unique_key first ;;
          current_state_dict <- build_state_dict unique_key current_state ;;
          desired_state_dict <- build_state_dict unique_key desired_state ;;
          let diff1 :=
            fold_left (removed_item_step p desired_state_dict)
                      current_state_dict diff0 in
          let diff2 :=
            fold_left (added_item_step p current_state_dict)
                      desired_state_dict diff1 in
          for_each (changed_item_step p desired_state_dict)
                   current_state_dict diff2
      end
  end.

(** Body of [for key in current_state]. *)
Definition current_key_step (desired_state : mapping) (p : string)
  (d : diff) (entry : string * value) : result diff :=
  let (key, current_value) := entry in
  let kp := key_path p key in
  match lookup key desired_state with
  | None => Ret (append_removed d (removed_record kp current_value))
  | Some desired_value =>
      match current_value, desired_value with
      | VDict cm, VDict dm =>
          sub_diff <- self cm dm kp ;;
          Ret (extend d sub_diff)
      | VList cl, VList dl =>
          sub_diff <- compare_state_lists_body cl dl kp ;;
          Ret (extend d sub_diff)
      | _, _ =>
          if negb (value_eqb current_value desired_value)
          then Ret (append_changed d
                      (changed_record kp current_value desired_value))
          else Ret d
      end
  end.

(** Body of [for key in desired_state]. *)
Definition desired_key_step (current_state : mapping) (p : string)
  (d : diff) (entry : string * value) : result diff :=
  let (key, desired_value) := entry in
  let kp := key_path p key in
  if negb (in_dict key current_state)
  then match desired_value with
       | VDict dm =>
           sub_diff <- self [] dm kp ;;
           Ret (extend_added d sub_diff)
       | _ => Ret (append_added d (added_record kp desired_value))
       end
  else Ret d.

Definition compare_state_dicts_body
  (current_state desired_state : mapping) (p : string) : result diff :=
  let diff0 := empty_diff in
  diff1 <- for_each (current_key_step desired_state p) current_state diff0 ;;
  for_each (desired_key_step current_state p) desired_state diff1.

End Differ.

(** The recursion of [compare_state_dicts] descends into the values of its
    two arguments; it is unrolled [n] times here. *)
Fixpoint compare_state_dicts_fuel (n : nat)
  : mapping -> mapping -> string -> result diff :=
  match n with
  | O => fun _ _ _ => OutOfFuel
  | S n' => compare_state_dicts_body (compare_state_dicts_fuel n')
  end.

(** [compare_state_dicts(current_state, desired_state, path)]: the nesting
    depths of the two trees bound the recursion. *)
Definition compare_state_dicts (current_state desired_state : mapping)
  (p : string) : result diff :=
  compare_state_dicts_fuel (S (depth_m current_state + depth_m desired_state))
    current_state desired_state p.

(** [compare_state_lists(current_state, desired_state, path)] *)
Definition compare_state_lists (current_state desired_state : list value)
  (p : string) : result diff :=
  compare_state_lists_body compare_state_dicts current_state desired_state p.

(** ** [check_mismatches] *)

(** [d.get(field)]: a missing field reads as [None]. *)
Definition dict_get (field : string) (d : mapping) : value :=
  match lookup field d with
  | Some v => v
  | None => VScalar SNone
  end.

Definition check_mismatches (current_state desired_state : mapping)
  (fields_to_check : list string) : list (string * bool) :=
  fold_left
    (fun mismatches field =>
       let current_value := dict_get field current_state in
       let desired_value := dict_get field desired_state in
       if negb (value_eqb current_value desired_value)
       then dict_set field true mismatches
       else dict_set field false mismatches)
    fields_to_check [].

(** ** Sample documents *)

Definition str (s : string) : value := VScalar (SStr s).
Definition int (z : Z) : value := VScalar (SInt z).

Definition deployment : mapping := [("kind", str "Deployment")].
Definition deployment_spec : mapping :=
  [("kind", str "Deployment"); ("spec", VDict [("replicas", int 3)])].
Definition nginx_v1 : list value :=
  [VDict [("name", str "nginx"); ("image", str "v1")]].
Definition nginx_v2 : list value :=
  [VDict [("name", str "nginx"); ("image", str "v2")]].
Definition manifest_nginx : mapping :=
  [("kind", str "Deployment");
   ("spec", VDict [("replicas", int 1); ("containers", VList nginx_v1)])].

(** ** Proof principles *)

(** Induction on document trees, with the hypothesis on every child. *)
Section ValueInd.
Variable P : value -> Prop.
Hypothesis Hscalar : forall s, P (VScalar s).
Hypothesis Hdict : forall m, Forall (fun kv => P (snd kv)) m -> P (VDict m).
Hypothesis Hlist : forall l, Forall P l -> P (VList l).

Fixpoint value_nested_ind (v : value) : P v :=
  match v with
  | VScalar s => Hscalar s
  | VDict m =>
      Hdict
        ((fix go (l : list (string * value)) : Forall (fun kv => P (snd kv)) l :=
            match l with
            | [] => Forall_nil _
            | kv :: rest => Forall_cons kv (value_nested_ind (snd kv)) (go rest)
            end) m)
  | VList l =>
      Hlist
        ((fix go (l : list value) : Forall P l :=
            match l with
            | [] => Forall_nil _
            | w :: rest => Forall_cons w (value_nested_ind w) (go rest)
            end) l)
  end.
End ValueInd.

(** A loop body is additive when it only appends to the accumulator. *)
Definition additive (A : Type) (step : diff -> A -> result diff) : Prop :=
  forall acc x, step acc x = r <- step empty_diff x ;; Ret (extend acc r).

(** ** Reference functions for the statements *)

(** One Added record per leaf field of a value that is new at path [p]: a
    mapping is decomposed key by key, anything else is one record. *)
Fixpoint leaf_records (p : string) (v : value) : list change_record :=
  match v with
  | VDict m =>
      (fix fields (l : list (string * value)) : list change_record :=
         match l with
         | [] => []
         | (k, w) :: rest => (leaf_records (key_path p k) w ++ fields rest)%list
         end) m
  | _ => [added_record p v]
  end.

(** [item] is a mapping that holds [unique_key] with a scalar value. *)
Definition has_scalar_key (unique_key : string) (item : value) : bool :=
  match item with
  | VDict m =>
      match lookup unique_key m with
      | Some (VScalar _) => true
      | _ => false
      end
  | _ => false
  end.

(** The identity key of a sequence whose first element is a non-empty
    mapping. *)
Definition identity_key_of (first : value) : option string :=
  match first with
  | VDict m =>
      if in_dict "name" m then Some "name"
      else match m with
           | [] => None
           | (k, _) :: _ => Some k
           end
  | _ => None
  end.

(** A non-empty sequence of mappings that all hold the identity key of the
    first one with a scalar value. *)
Definition keyed_list (l : list value) : bool :=
  match l with
  | [] => false
  | first :: _ =>
      match identity_key_of first with
      | Some unique_key => forallb (has_scalar_key unique_key) l
      | None => false
      end
  end.

(** Every sequence that is reached through mappings alone is a
    [keyed_list]. *)
Fixpoint identity_ready (v : value) : bool :=
  match v with
  | VScalar _ => true
  | VDict m =>
      (fix ready_items (l : list (string * value)) : bool :=
         match l with
         | [] => true
         | (_, w) :: rest => identity_ready w && ready_items rest
         end) m
  | VList l => keyed_list l
  end.

(** The keys of a dictionary of the sequence differ are pairwise different
    under Python's equality. *)
Fixpoint sd_distinct (d : state_dict) : Prop :=
  match d with
  | [] => True
  | (k, _) :: rest => sd_get k rest = None /\ sd_distinct rest
  end.

(** Every sequence of the tree, at any depth, holds only mappings that have
    the key ["name"] with a scalar value. *)
Fixpoint named_lists (v : value) : bool :=
  match v with
  | VScalar _ => true
  | VDict m =>
      (fix named_items (l : list (string * value)) : bool :=
         match l with
         | [] => true
         | (_, w) :: rest => named_lists w && named_items rest
         end) m
  | VList l =>
      (fix named_elems (l : list value) : bool :=
         match l with
         | [] => true
         | w :: rest =>
             has_scalar_key "name" w && named_lists w && named_elems rest
         end) l
  end.

(** One iteration of the loop of [check_mismatches]: both branches set the
    field, to the outcome of the comparison. *)
Definition mismatch_step (c d : mapping) (mismatches : list (string * bool))
  (field : string) : list (string * bool) :=
  dict_set field (negb (value_eqb (dict_get field c) (dict_get field d)))
           mismatches.

(** The last element of a sequence whose identity value equals [key]. *)
Fixpoint last_item (unique_key : string) (key : scalar) (l : list value)
  : option mapping :=
  match l with
  | [] => None
  | item :: rest =>
      match last_item unique_key key rest with
      | Some m => Some m
      | None =>
          match item_key unique_key item with
          | Ret (k, m) => if scalar_eqb key k then Some m else None
          | _ => None
          end
      end
  end.

(** Two dictionaries of the sequence differ that are the same but for the
    item stored under the first key equal to [k]. *)
Inductive differ_at_first (k : scalar) : state_dict -> state_dict -> Prop :=
| differ_here key m m' rest :
    scalar_eqb k key = true ->
    differ_at_first k ((key, m) :: rest) ((key, m') :: rest)
| differ_later key m rest rest' :
    scalar_eqb k key = false ->
    differ_at_first k rest rest' ->
    differ_at_first k ((key, m) :: rest) ((key, m) :: rest').

(** One iteration of the dictionary comprehension of the sequence differ. *)
Definition state_dict_step (unique_key : string) (d : state_dict)
  (item : value) : result state_dict :=
  km <- item_key unique_key item ;;
  Ret (sd_set (fst km) (snd km) d).

(** A tree without sequences. *)
Fixpoint seq_free (v : value) : bool :=
  match v with
  | VScalar _ => true
  | VDict m =>
      (fix free_items (l : list (string * value)) : bool :=
         match l with
         | [] => true
         | (_, w) :: rest => seq_free w && free_items rest
         end) m
  | VList _ => false
  end.

(** A Changed record read in the other direction. *)
Definition swap_values (r : change_record) : change_record :=
  mk_record (path r) (new_value r) (old_value r) (message r).

(** The Added records that stand for a Removed record when the two trees
    change places: the leaves of the removed value. *)
Definition as_added_leaves (r : change_record) : list change_record :=
  match old_value r with
  | Some v => leaf_records (path r) v
  | None => []
  end.

(** The diff a step returned, and the empty diff when it raised. *)
Definition ret_or_empty (r : result diff) : diff :=
  match r with
  | Ret d => d
  | _ => empty_diff
  end.

(** Diff [rd] is diff [rc] read in the other direction: the Changed records
    are the same with old and new values exchanged, and the Added records of
    [rd] are the leaves of the Removed records of [rc]; the order of the
    records is free. *)
Definition mirrored (rc rd : diff) : Prop :=
  Permutation (changed rd) (map swap_values (changed rc)) /\
  Permutation (added rd) (flat_map as_added_leaves (removed rc)).

(** * The differ over a store of mutable objects

    Python dictionaries and lists are objects that are passed by reference;
    the change records of a diff hold references to subtrees of the input
    documents, and the differ appends to lists in place.  To state what the
    differ does to the objects it is given, the same two functions are
    written once more over a store: an object lives at a location, a record
    that reports a subtree holds the location of that subtree, and
    [append]/[extend] update the list object they are called on.

    The dictionary [diff] is created once per call and its three entries are
    never reassigned; it is represented by the locations of its three lists.
    The dictionaries built by the comprehension of [compare_state_lists] are
    local to the call and only read; they are kept as association lists from
    identity values to the references of the items. *)
Module Store.

Inductive ref : Type :=
| RScalar (s : scalar)
| RObj (l : nat).

Inductive obj : Type :=
| ODict (items : list (string * ref))
| OList (elems : list ref).

Definition heap : Type := list obj.
Bind Scope list_scope with heap.

Inductive outcome (A : Type) : Type :=
| Ok (a : A) (h : heap)
| Err (e : py_error) (h : heap)
| Fuel.

Arguments Err {A} e h.
Arguments Fuel {A}.

Definition M (A : Type) : Type := heap -> outcome A.

Definition ret {A : Type} (a : A) : M A := fun h => Ok a h.

Definition raise {A : Type} (e : py_error) : M A := fun h => Err e h.

Definition out_of_fuel {A : Type} : M A := fun _ => Fuel.

Definition bind {A B : Type} (m : M A) (f : A -> M B) : M B :=
  fun h =>
    match m h with
    | Ok a h' => f a h'
    | Err e h' => Err e h'
    | Fuel => Fuel
    end.

Notation "x <~ c1 ;; c2" := (bind c1 (fun x => c2))
  (at level 61, c1 at next level, right associativity).

Fixpoint for_each {A : Type} (body : A -> M unit) (l : list A) : M unit :=
  match l with
  | [] => ret tt
  | x :: rest => _ <~ body x ;; for_each body rest
  end.

(** ** Objects *)

(** A new object, at the next free location. *)
Definition alloc (o : obj) : M nat :=
  fun h => Ok (List.length h) (h ++ [o])%list.

Definition load (l : nat) : M obj :=
  fun h =>
    match nth_error h l with
    | Some o => Ok o h
    | None => Err TypeError h
    end.

Fixpoint update (l : nat) (o : obj) (h : heap) : heap :=
  match h, l with
  | [], _ => []
  | _ :: rest, O => o :: rest
  | x :: rest, S l' => x :: update l' o rest
  end.

Definition store (l : nat) (o : obj) : M unit :=
  fun h => Ok tt (update l o h).

(** [lst.append(x)] *)
Definition list_append (l : nat) (x : ref) : M unit :=
  o <~ load l ;;
  match o with
  | OList elems => store l (OList (elems ++ [x]))
  | ODict _ => raise AttributeError
  end.

(** [lst.extend(src)] *)
Definition list_extend (l src : nat) : M unit :=
  o <~ load l ;;
  s <~ load src ;;
  match o, s with
  | OList elems, OList more => store l (OList (elems ++ more))
  | _, _ => raise AttributeError
  end.

(** The location behind a reference that is known to be an object. *)
Definition as_loc (r : ref) : M nat :=
  match r with
  | RObj l => ret l
  | RScalar _ => raise TypeError
  end.

(** The truth value of [isinstance(r, dict)] and of [isinstance(r, list)]. *)
Definition is_dict (r : ref) : M bool :=
  match r with
  | RScalar _ => ret false
  | RObj l => o <~ load l ;;
              ret (match o with ODict _ => true | OList _ => false end)
  end.

Definition is_list (r : ref) : M bool :=
  match r with
  | RScalar _ => ret false
  | RObj l => o <~ load l ;;
              ret (match o with OList _ => true | ODict _ => false end)
  end.

(** The items of the dictionary at [l], and the elements of the list at
    [l]. *)
Definition dict_items (l : nat) : M (list (string * ref)) :=
  o <~ load l ;;
  match o with
  | ODict items => ret items
  | OList _ => raise AttributeError
  end.

Definition list_elems (l : nat) : M (list ref) :=
  o <~ load l ;;
  match o with
  | OList elems => ret elems
  | ODict _ => raise AttributeError
  end.

(** Python's [==] on references, read through the store. *)
Fixpoint py_eqb (n : nat) (h : heap) (a b : ref) : option bool :=
  match n with
  | O => None
  | S n' =>
      match a, b with
      | RScalar x, RScalar y => Some (scalar_eqb x y)
      | RObj la, RObj lb =>
          match nth_error h la, nth_error h lb with
          | Some (ODict ia), Some (ODict ib) =>
              if Nat.eqb (List.length ia) (List.length ib)
              then (fix items_eqb (l : list (string * ref)) : option bool :=
                      match l with
                      | [] => Some true
                      | (k, v) :: rest =>
                          match lookup k ib with
                          | Some v' =>
                              match py_eqb n' h v v' with
                              | Some true => items_eqb rest
                              | other => other
                              end
                          | None => Some false
                          end
                      end) ia
              else Some false
          | Some (OList ea), Some (OList eb) =>
              (fix elems_eqb (l l' : list ref) : option bool :=
                 match l, l' with
                 | [], [] => Some true
                 | x :: r, y :: r' =>
                     match py_eqb n' h x y with
                     | Some true => elems_eqb r r'
                     | other => other
                     end
                 | _, _ => Some false
                 end) ea eb
          | _, _ => Some false
          end
      | _, _ => Some false
      end
  end.

(** [a != b] *)
Definition py_ne (n : nat) (a b : ref) : M bool :=
  fun h =>
    match py_eqb n h a b with
    | Some e => Ok (negb e) h
    | None => Fuel
    end.

(** The document that a reference stands for. *)
Fixpoint read (n : nat) (h : heap) (r : ref) : option value :=
  match n with
  | O => None
  | S n' =>
      match r with
      | RScalar s => Some (VScalar s)
      | RObj l =>
          match nth_error h l with
          | Some (ODict items) =>
              option_map VDict
                ((fix read_items (l : list (string * ref))
                    : option (list (string * value)) :=
                    match l with
                    | [] => Some []
                    | (k, v) :: rest =>
                        match read n' h v, read_items rest with
                        | Some w, Some ws => Some ((k, w) :: ws)
                        | _, _ => None
                        end
                    end) items)
          | Some (OList elems) =>
              option_map VList
                ((fix read_elems (l : list ref) : option (list value) :=
                    match l with
                    | [] => Some []
                    | v :: rest =>
                        match read n' h v, read_elems rest with
                        | Some w, Some ws => Some (w :: ws)
                        | _, _ => None
                        end
                    end) elems)
          | None => None
          end
      end
  end.

(** ** Change records and diffs *)

Definition str_ref (s : string) : ref := RScalar (SStr s).

(** [{"path": p, "message": msg}] *)
Definition message_record (p msg : string) : M ref :=
  l <~ alloc (ODict [("path", str_ref p); ("message", str_ref msg)]) ;;
  ret (RObj l).

(** [{"path": p, "old_value": v}] *)
Definition removed_record (p : string) (v : ref) : M ref :=
  l <~ alloc (ODict [("path", str_ref p); ("old_value", v)]) ;;
  ret (RObj l).

(** [{"path": p, "new_value": v}] *)
Definition added_record (p : string) (v : ref) : M ref :=
  l <~ alloc (ODict [("path", str_ref p); ("new_value", v)]) ;;
  ret (RObj l).

(** [{"path": p, "old_value": o, "new_value": n}] *)
Definition changed_record (p : string) (o n : ref) : M ref :=
  l <~ alloc (ODict [("path", str_ref p); ("old_value", o); ("new_value", n)]) ;;
  ret (RObj l).

(** The locations of the lists [diff["removed"]], [diff["added"]] and
    [diff["changed"]]. *)
Record diff_lists : Type := mk_diff_lists {
  removed_at : nat;
  added_at : nat;
  changed_at : nat
}.

(** [diff = {"removed": [], "added": [], "changed": []}] *)
Definition new_diff : M diff_lists :=
  r <~ alloc (OList []) ;;
  a <~ alloc (OList []) ;;
  c <~ alloc (OList []) ;;
  ret (mk_diff_lists r a c).

(** The three [extend] calls that merge a sub-diff. *)
Definition extend (d sub : diff_lists) : M unit :=
  _ <~ list_extend (removed_at d) (removed_at sub) ;;
  _ <~ list_extend (added_at d) (added_at sub) ;;
  list_extend (changed_at d) (changed_at sub).

(** ** The identity key *)

Section Fuelled.

(** The depth to which a comparison with [!=] or [in] may descend. *)
Variable n : nat.

(** ["name" in first] *)
Definition contains_name (first : ref) : M bool :=
  match first with
  | RScalar (SStr s) =>
      ret (match String.index 0 "name" s with Some _ => true | None => false end)
  | RScalar _ => raise TypeError
  | RObj l =>
      o <~ load l ;;
      match o with
      | ODict items => ret (in_dict "name" items)
      | OList elems =>
          fun h =>
            (fix member (l : list ref) : outcome bool :=
               match l with
               | [] => Ok false h
               | x :: rest =>
                   match py_eqb n h x (str_ref "name") with
                   | Some true => Ok true h
                   | Some false => member rest
                   | None => Fuel
                   end
               end) elems
      end
  end.

(** [list(first.keys())[0]] *)
Definition first_key (first : ref) : M string :=
  match first with
  | RScalar _ => raise AttributeError
  | RObj l =>
      o <~ load l ;;
      match o with
      | ODict [] => raise IndexError
      | ODict ((k, _) :: _) => ret k
      | OList _ => raise AttributeError
      end
  end.

Definition select_unique_key (first : ref) : M string :=
  has_name <~ contains_name first ;;
  if has_name then ret "name" else first_key first.

(** [item[unique_key]], which has to be hashable. *)
Definition item_key (unique_key : string) (item : ref) : M scalar :=
  match item with
  | RScalar _ => raise TypeError
  | RObj l =>
      o <~ load l ;;
      match o with
      | ODict items =>
          match lookup unique_key items with
          | None => raise KeyError
          | Some (RScalar k) => ret k
          | Some (RObj _) => raise TypeError
          end
      | OList _ => raise TypeError
      end
  end.

Definition ref_dict : Type := list (scalar * ref).

Fixpoint rd_get (key : scalar) (d : ref_dict) : option ref :=
  match d with
  | [] => None
  | (k, r) :: rest => if scalar_eqb key k then Some r else rd_get key rest
  end.

Definition rd_mem (key : scalar) (d : ref_dict) : bool :=
  match rd_get key d with Some _ => true | None => false end.

Fixpoint rd_set (key : scalar) (item : ref) (d : ref_dict) : ref_dict :=
  match d with
  | [] => [(key, item)]
  | (k, r) :: rest =>
      if scalar_eqb key k then (k, item) :: rest
      else (k, r) :: rd_set key item rest
  end.

(** [{item[unique_key]: item for item in items}] *)
Fixpoint build_state_dict (unique_key : string) (items : list ref)
  (acc : ref_dict) : M ref_dict :=
  match items with
  | [] => ret acc
  | item :: rest =>
      k <~ item_key unique_key item ;;
      build_state_dict unique_key rest (rd_set k item acc)
  end.

(** ** The two differs *)

(** The recursive call to [compare_state_dicts], on the locations of two
    dictionaries. *)
Variable self : nat -> nat -> string -> M diff_lists.

Definition compare_state_lists_body (current_state desired_state : nat)
  (p : string) : M diff_lists :=
  diff <~ new_diff ;;
  current_items <~ list_elems current_state ;;
  match current_items with
  | [] =>
      r <~ message_record p "Current state list is empty" ;;
      _ <~ list_append (removed_at diff) r ;;
      ret diff
  | first :: _ =>
      desired_items <~ list_elems desired_state ;;
      match desired_items with
      | [] =>
          r <~ message_record p "Desired state list is empty" ;;
          _ <~ list_append (added_at diff) r ;;
          ret diff
      | _ :: _ =>
          unique_key <~ select_unique_key first ;;
          current_state_dict <~ build_state_dict unique_key current_items [] ;;
          desired_state_dict <~ build_state_dict unique_key desired_items [] ;;
          _ <~ for_each
                 (fun entry : scalar * ref =>
                    let (key, item) := entry in
                    if negb (rd_mem key desired_state_dict)
                    then r <~ removed_record (elem_path p key) item ;;
                         list_append (removed_at diff) r
                    else ret tt)
                 current_state_dict ;;
          _ <~ for_each
                 (fun entry : scalar * ref =>
                    let (key, item) := entry in
                    if negb (rd_mem key current_state_dict)
                    then r <~ added_record (elem_path p key) item ;;
                         list_append (added_at diff) r
                    else ret tt)
                 desired_state_dict ;;
          _ <~ for_each
                 (fun entry : scalar * ref =>
                    let (key, item) := entry in
                    match rd_get key desired_state_dict with
                    | Some desired_item =>
                        differs <~ py_ne n item desired_item ;;
                        if differs
                        then c <~ as_loc item ;;
                             d <~ as_loc desired_item ;;
                             sub_diff <~ self c d (elem_path p key) ;;
                             extend diff sub_diff
                        else ret tt
                    | None => ret tt
                    end)
                 current_state_dict ;;
          ret diff
      end
  end.

(** [d[key]] for a key that the loop has just taken from [d]. *)
Definition getitem (l : nat) (key : string) : M ref :=
  items <~ dict_items l ;;
  match lookup key items with
  | Some r => ret r
  | None => raise KeyError
  end.

Definition compare_state_dicts_body (current_state desired_state : nat)
  (p : string) : M diff_lists :=
  diff <~ new_diff ;;
  current_items <~ dict_items current_state ;;
  _ <~ for_each
         (fun key : string =>
            let kp := key_path p key in
            desired_items <~ dict_items desired_state ;;
            current_value <~ getitem current_state key ;;
            match lookup key desired_items with
            | None =>
                r <~ removed_record kp current_value ;;
                list_append (removed_at diff) r
            | Some desired_value =>
                cd <~ is_dict current_value ;;
                dd <~ is_dict desired_value ;;
                if cd && dd
                then c <~ as_loc current_value ;;
                     d <~ as_loc desired_value ;;
                     sub_diff <~ self c d kp ;;
                     extend diff sub_diff
                else
                  cl <~ is_list current_value ;;
                  dl <~ is_list desired_value ;;
                  if cl && dl
                  then c <~ as_loc current_value ;;
                       d <~ as_loc desired_value ;;
                       sub_diff <~ compare_state_lists_body c d kp ;;
                       extend diff sub_diff
                  else
                    differs <~ py_ne n current_value desired_value ;;
                    if differs
                    then r <~ changed_record kp current_value desired_value ;;
                         list_append (changed_at diff) r
                    else ret tt
            end)
         (map fst current_items) ;;
  desired_items <~ dict_items desired_state ;;
  _ <~ for_each
         (fun key : string =>
            let kp := key_path p key in
            current_now <~ dict_items current_state ;;
            if negb (in_dict key current_now)
            then desired_value <~ getitem desired_state key ;;
                 dd <~ is_dict desired_value ;;
                 if dd
                 then d <~ as_loc desired_value ;;
                      empty <~ alloc (ODict []) ;;
                      sub_diff <~ self empty d kp ;;
                      list_extend (added_at diff) (added_at sub_diff)
                 else r <~ added_record kp desired_value ;;
                      list_append (added_at diff) r
            else ret tt)
         (map fst desired_items) ;;
  ret diff.

End Fuelled.

Fixpoint compare_state_dicts (n : nat)
  : nat -> nat -> string -> M diff_lists :=
  match n with
  | O => fun _ _ _ => out_of_fuel
  | S n' => compare_state_dicts_body n' (compare_state_dicts n')
  end.

Definition compare_state_lists (n : nat)
  : nat -> nat -> string -> M diff_lists :=
  compare_state_lists_body n (compare_state_dicts n).

(** Every object of [h] is still there in [h'], with the same content. *)
Definition preserved (h h' : heap) : Prop :=
  List.length h <= List.length h' /\
  forall l, l < List.length h -> nth_error h' l = nth_error h l.

(** Started in a store that preserves [h0], computation [m] ends in a store
    that preserves [h0], with a result that satisfies [Q]. *)
Definition keeps (A : Type) (h0 : heap) (m : M A) (Q : A -> Prop) : Prop :=
  forall h,
    preserved h0 h ->
    match m h with
    | Ok a h' => preserved h0 h' /\ Q a
    | Err _ h' => preserved h0 h'
    | Fuel => True
    end.

(** The three lists of a diff were created after the store [h0]. *)
Definition own_lists (h0 : heap) (d : diff_lists) : Prop :=
  List.length h0 <= removed_at d /\
  List.length h0 <= added_at d /\
  List.length h0 <= changed_at d.

End Store.

(** A store that holds two manifests: the current one at location 3 and the
    desired one at location 8. *)
Definition sample_store : Store.heap :=
  [ Store.ODict [("name", Store.str_ref "nginx"); ("image", Store.str_ref "v1")];
    Store.OList [Store.RObj 0];
    Store.ODict [("replicas", Store.RScalar (SInt 1));
                 ("containers", Store.RObj 1)];
    Store.ODict [("kind", Store.str_ref "Deployment"); ("spec", Store.RObj 2)];
    Store.ODict [("name", Store.str_ref "nginx"); ("image", Store.str_ref "v2")];
    Store.OList [Store.RObj 4];
    Store.ODict [("replicas", Store.RScalar (SInt 3));
                 ("containers", Store.RObj 5);
                 ("strategy", Store.RObj 7)];
    Store.ODict [("type", Store.str_ref "Recreate")];
    Store.ODict [("spec", Store.RObj 6)] ].

(** ** Properties of every record of a diff *)

Section Records.

(** What is to hold of the Removed, Added and Changed records of a diff that
    was computed at a path. *)
Variables Pr Pa Pc : string -> change_record -> Prop.

Definition all_records (p : string) (d : diff) : Prop :=
  Forall (Pr p) (removed d) /\ Forall (Pa p) (added d) /\
  Forall (Pc p) (changed d).

End Records.

(** Two elements of [l] with equal identity values are the same element. *)
Definition distinct_identities (unique_key : string) (l : list value) : Prop :=
  forall m1 m2 k1 k2,
    In (VDict m1) l -> In (VDict m2) l ->
    item_key unique_key (VDict m1) = Ret (k1, m1) ->
    item_key unique_key (VDict m2) = Ret (k2, m2) ->
    scalar_eqb k1 k2 = true -> m1 = m2.

(** * [get_diff_summary] *)

(** A list comprehension whose element expression may raise. *)
Fixpoint map_result {A B : Type} (f : A -> result B) (l : list A)
  : result (list B) :=
  match l with
  | [] => Ret []
  | x :: rest => y <- f x ;; ys <- map_result f rest ;; Ret (y :: ys)
  end.

Section Summary.

(** The renderings that [get_diff_summary] takes from the YAML library and
    from Python's string formatting: [yaml.dump(v).strip()],
    [yaml.dump(v, default_flow_style=False).strip()] and [str(v)]. *)
Variable yaml_dump : value -> string.
Variable yaml_dump_block : value -> string.
Variable py_format : value -> string.

(** [f"{item['path']}: {yaml.dump(item.get('old_value', '')).strip()}"] *)
Definition removed_line (item : change_record) : string :=
  path item ++ ": " ++
  yaml_dump (match old_value item with
             | Some v => v
             | None => VScalar (SStr "")
             end).

(** [f"{item['path']}: {yaml.dump(item['new_value'], ...).strip()}"] *)
Definition added_line (item : change_record) : result string :=
  match new_value item with
  | Some v => Ret (path item ++ ": " ++ yaml_dump_block v)
  | None => Raise KeyError
  end.

(** [f"{item['path']}: old value: {item['old_value']}, new value:
    {item['new_value']}"] *)
Definition changed_line (item : change_record) : result string :=
  match old_value item, new_value item with
  | Some o, Some n =>
      Ret (path item ++ ": old value: " ++ py_format o ++
           ", new value: " ++ py_format n)
  | _, _ => Raise KeyError
  end.

Definition get_diff_summary (d : diff) : result (list (string * list string)) :=
  let summary := [] in
  let summary :=
    match removed d with
    | [] => summary
    | _ :: _ => dict_set "removed" (map removed_line (removed d)) summary
    end in
  summary <-
    match added d with
    | [] => Ret summary
    | _ :: _ =>
        lines <- map_result added_line (added d) ;;
        Ret (dict_set "added" lines summary)
    end ;;
  match changed d with
  | [] => Ret summary
  | _ :: _ =>
      lines <- map_result changed_line (changed d) ;;
      Ret (dict_set "changed" lines summary)
  end.

End Summary.

(** * The presenter [print_diff] *)

(** [item.split(":", 1)]: the text before the first colon and, when there is
    a colon, the text after it. *)
Fixpoint split_colon (item : string) : string * option string :=
  match item with
  | EmptyString => (EmptyString, None)
  | String ch rest =>
      if Ascii.eqb ch ":"%char then (EmptyString, Some rest)
      else let (head, tail) := split_colon rest in (String ch head, tail)
  end.

(** The string holds no colon. *)
Fixpoint colon_free (s : string) : bool :=
  match s with
  | EmptyString => true
  | String ch rest => negb (Ascii.eqb ch ":"%char) && colon_free rest
  end.

(** The truth value of [summary.get(name)]. *)
Definition summary_has (name : string) (summary : list (string * list string))
  : bool :=
  match lookup name summary with
  | Some (_ :: _) => true
  | _ => false
  end.

Section Presenter.

Variable yaml_dump : value -> string.
Variable yaml_dump_block : value -> string.
Variable py_format : value -> string.

(** Whether [print_diff] logs ["No differences found."] for two loaded
    documents: the test of lines 296-300 on the summary of their diff. *)
Definition reports_no_differences (current_state desired_state : mapping)
  : result bool :=
  d <- compare_state_dicts current_state desired_state "" ;;
  summary <- get_diff_summary yaml_dump yaml_dump_block py_format d ;;
  Ret (negb (summary_has "removed" summary) &&
       negb (summary_has "added" summary) &&
       negb (summary_has "changed" summary)).

End Presenter.

(** * Properties *)

(** ** Results and loops *)

Lemma for_each_ext (A B : Type) (f g : B -> A -> result B) (l : list A) :
  (forall acc x, In x l -> f acc x = g acc x) ->
  forall acc, for_each f l acc = for_each g l acc.
Proof.
  induction l as [|x l IH]; intros H acc; simpl; [reflexivity|].
  rewrite (H acc x (or_introl eq_refl)).
  destruct (g acc x); simpl; auto.
  apply IH. intros; apply H; right; assumption.
Qed.

Lemma for_each_app (A B : Type) (f : B -> A -> result B) (l1 l2 : list A) acc :
  for_each f (l1 ++ l2) acc = acc' <- for_each f l1 acc ;; for_each f l2 acc'.
Proof.
  revert acc; induction l1 as [|x l1 IH]; intros acc; simpl; [reflexivity|].
  destruct (f acc x); simpl; auto.
Qed.

Lemma for_each_terminates (A B : Type) (f : B -> A -> result B) (l : list A) :
  (forall acc x, In x l -> f acc x <> OutOfFuel) ->
  forall acc, for_each f l acc <> OutOfFuel.
Proof.
  induction l as [|x l IH]; intros H acc; simpl; [discriminate|].
  destruct (f acc x) eqn:E; simpl.
  - apply IH. intros; apply H; right; assumption.
  - discriminate.
  - exfalso. exact (H acc x (or_introl eq_refl) E).
Qed.

Lemma for_each_returns (A B : Type) (f : B -> A -> result B) (l : list A) :
  (forall acc x, In x l -> exists acc', f acc x = Ret acc') ->
  forall acc, exists acc', for_each f l acc = Ret acc'.
Proof.
  induction l as [|x l IH]; intros H acc; simpl; [eauto|].
  destruct (H acc x (or_introl eq_refl)) as [acc' ->]; simpl.
  apply IH. intros; apply H; right; assumption.
Qed.

Lemma for_each_skip (A B : Type) (f : B -> A -> result B) (l : list A) :
  (forall acc x, In x l -> f acc x = Ret acc) ->
  forall acc, for_each f l acc = Ret acc.
Proof.
  induction l as [|x l IH]; intros H acc; simpl; [reflexivity|].
  rewrite (H acc x (or_introl eq_refl)); simpl.
  apply IH. intros; apply H; right; assumption.
Qed.

(** ** Values *)

Lemma lookup_In (V : Type) key (d : list (string * V)) v :
  lookup key d = Some v -> In (key, v) d.
Proof.
  induction d as [|[k w] d IH]; simpl; [discriminate|].
  destruct (String.eqb key k) eqn:E.
  - apply String.eqb_eq in E. intros [= ->]. left; congruence.
  - intros H; right; auto.
Qed.

Lemma lookup_app (V : Type) key (d1 d2 : list (string * V)) :
  lookup key (d1 ++ d2) =
  match lookup key d1 with Some v => Some v | None => lookup key d2 end.
Proof.
  induction d1 as [|[k w] d1 IH]; simpl; [reflexivity|].
  destruct (String.eqb key k); auto.
Qed.

Lemma in_dict_In (V : Type) key (v : V) (d : list (string * V)) :
  In (key, v) d -> in_dict key d = true.
Proof.
  unfold in_dict. induction d as [|[k w] d IH]; simpl; [tauto|].
  intros [[= -> ->]|H].
  - rewrite String.eqb_refl. reflexivity.
  - destruct (String.eqb key k); auto.
Qed.

Lemma lookup_unique (V : Type) key (v : V) (d : list (string * V)) :
  unique_keys d = true -> In (key, v) d -> lookup key d = Some v.
Proof.
  induction d as [|[k w] d IH]; simpl; [tauto|].
  intros Hu [[= -> ->]|H].
  - rewrite String.eqb_refl. reflexivity.
  - apply andb_prop in Hu as [Hk Hu].
    destruct (String.eqb key k) eqn:E; auto.
    apply String.eqb_eq in E; subst.
    rewrite (in_dict_In _ _ _ H) in Hk. discriminate.
Qed.

Lemma depth_in_dict k v (m : mapping) : In (k, v) m -> depth v < depth_m m.
Proof.
  unfold depth_m. induction m as [|[k' w] m IH]; [simpl; tauto|].
  change (depth (VDict ((k', w) :: m)))
    with (Nat.max (S (depth w)) (depth (VDict m))).
  intros [[= -> ->]|H]; [lia|]. specialize (IH H). lia.
Qed.

Lemma depth_in_list v (l : list value) : In v l -> depth v < depth (VList l).
Proof.
  induction l as [|w l IH]; [simpl; tauto|].
  change (depth (VList (w :: l)))
    with (Nat.max (S (depth w)) (depth (VList l))).
  intros [->|H]; [lia|]. specialize (IH H). lia.
Qed.

(** ** The dictionaries of the sequence differ *)

Lemma sd_get_In key d m : sd_get key d = Some m -> exists k, In (k, m) d.
Proof.
  induction d as [|[k w] d IH]; simpl; [discriminate|].
  destruct (scalar_eqb key k).
  - intros [= ->]. eauto.
  - intros H. destruct (IH H) as [k' Hk']. eauto.
Qed.

Lemma sd_set_In key item d k m :
  In (k, m) (sd_set key item d) -> m = item \/ In (k, m) d.
Proof.
  induction d as [|[k' w] d IH]; simpl.
  - intros [[= <- <-]|[]]. auto.
  - destruct (scalar_eqb key k'); simpl.
    + intros [[= <- <-]|H]; auto.
    + intros [H|H]; auto. destruct (IH H); auto.
Qed.

Lemma item_key_dict uk item k m : item_key uk item = Ret (k, m) -> item = VDict m.
Proof.
  destruct item as [s|m'|l]; simpl; try discriminate.
  destruct (lookup uk m') as [[s| |]|]; try discriminate.
  intros [= _ ->]. reflexivity.
Qed.

Lemma build_state_dict_items uk items :
  forall acc d, 
  for_each (fun d item => km <- item_key uk item ;;
                          Ret (sd_set (fst km) (snd km) d)) items acc = Ret d ->
  forall k m, In (k, m) d -> In (k, m) acc \/ In (VDict m) items.
Proof.
  induction items as [|item items IH]; intros acc d; simpl.
  - intros [= <-]. auto.
  - destruct (item_key uk item) as [[key im]| |] eqn:E; simpl; try discriminate.
    intros H k m Hin. destruct (IH _ _ H _ _ Hin) as [Hacc|Hit]; auto.
    apply sd_set_In in Hacc as [->|Hacc]; auto.
    apply item_key_dict in E. auto.
Qed.

Lemma build_state_dict_In uk items d k m :
  build_state_dict uk items = Ret d -> In (k, m) d -> In (VDict m) items.
Proof.
  intros H Hin. destruct (build_state_dict_items _ _ _ H _ _ Hin) as [[]|]; auto.
Qed.

(** ** The recursion of the differ *)

Lemma changed_item_step_ext f g p dd acc key item :
  (forall ditem, sd_get key dd = Some ditem ->
                 f item ditem (elem_path p key) = g item ditem (elem_path p key)) ->
  changed_item_step f p dd acc (key, item) =
  changed_item_step g p dd acc (key, item).
Proof.
  intros H. unfold changed_item_step.
  destruct (sd_get key dd) as [ditem|]; [|reflexivity].
  destruct (dict_eqb item ditem); simpl; [reflexivity|].
  rewrite H; reflexivity.
Qed.

Lemma compare_state_lists_body_ext f g cl dl p :
  (forall cm dm q, In (VDict cm) cl -> In (VDict dm) dl -> f cm dm q = g cm dm q) ->
  compare_state_lists_body f cl dl p = compare_state_lists_body g cl dl p.
Proof.
  intros H. unfold compare_state_lists_body.
  destruct cl as [|first cl']; [reflexivity|].
  destruct dl as [|dfirst dl']; [reflexivity|].
  destruct (select_unique_key first) as [uk| |]; simpl; try reflexivity.
  destruct (build_state_dict uk (first :: cl')) as [cd| |] eqn:Ec;
    simpl; try reflexivity.
  destruct (build_state_dict uk (dfirst :: dl')) as [dd| |] eqn:Ed;
    simpl; try reflexivity.
  apply for_each_ext. intros acc [key item] Hin.
  apply changed_item_step_ext. intros ditem Eg. apply H.
  - eapply build_state_dict_In; eassumption.
  - apply sd_get_In in Eg as [k Hk]. eapply build_state_dict_In; eassumption.
Qed.

Lemma current_key_step_ext f g c d p acc key cv :
  In (key, cv) c ->
  (forall cm dm q, depth_m cm + depth_m dm < depth_m c + depth_m d ->
                   f cm dm q = g cm dm q) ->
  current_key_step f d p acc (key, cv) = current_key_step g d p acc (key, cv).
Proof.
  intros Hin H. unfold current_key_step.
  destruct (lookup key d) as [dv|] eqn:El; [|reflexivity].
  apply lookup_In in El.
  pose proof (depth_in_dict _ _ _ Hin) as Dc.
  pose proof (depth_in_dict _ _ _ El) as Dd.
  destruct cv as [cs|cm|cl], dv as [ds|dm|dl]; try reflexivity.
  - rewrite H; [reflexivity|]. unfold depth_m in *. lia.
  - rewrite (compare_state_lists_body_ext f g); [reflexivity|].
    intros cm dm q Hc Hd. apply H.
    apply depth_in_list in Hc, Hd. unfold depth_m in *. lia.
Qed.

Lemma desired_key_step_ext f g c d p acc key dv :
  In (key, dv) d ->
  (forall cm dm q, depth_m cm + depth_m dm < depth_m c + depth_m d ->
                   f cm dm q = g cm dm q) ->
  desired_key_step f c p acc (key, dv) = desired_key_step g c p acc (key, dv).
Proof.
  intros Hin H. unfold desired_key_step.
  destruct (negb (in_dict key c)); [|reflexivity].
  destruct dv as [ds|dm|dl]; try reflexivity.
  rewrite H; [reflexivity|].
  pose proof (depth_in_dict _ _ _ Hin) as Dd.
  unfold depth_m in *. simpl (depth (VDict [])). lia.
Qed.

Lemma compare_state_dicts_body_ext f g c d p :
  (forall cm dm q, depth_m cm + depth_m dm < depth_m c + depth_m d ->
                   f cm dm q = g cm dm q) ->
  compare_state_dicts_body f c d p = compare_state_dicts_body g c d p.
Proof.
  intros H. unfold compare_state_dicts_body.
  rewrite (for_each_ext (current_key_step f d p) (current_key_step g d p)).
  2:{ intros acc [key cv] Hin. eapply current_key_step_ext; eassumption. }
  destruct (for_each _ c empty_diff) as [d1| |]; simpl; try reflexivity.
  apply for_each_ext. intros acc [key dv] Hin.
  eapply desired_key_step_ext; eassumption.
Qed.

Lemma compare_state_dicts_fuel_irrelevant n :
  forall k c d p,
    depth_m c + depth_m d < n -> depth_m c + depth_m d < k ->
    compare_state_dicts_fuel n c d p = compare_state_dicts_fuel k c d p.
Proof.
  induction n as [|n IH]; intros k c d p Hn Hk; [lia|].
  destruct k as [|k]; [lia|]. simpl.
  apply compare_state_dicts_body_ext. intros cm dm q Hlt.
  apply IH; lia.
Qed.

(** [compare_state_dicts] satisfies the recursive equation of the source. *)
Lemma compare_state_dicts_unfold c d p :
  compare_state_dicts c d p =
  compare_state_dicts_body compare_state_dicts c d p.
Proof.
  unfold compare_state_dicts at 1. simpl.
  apply compare_state_dicts_body_ext. intros cm dm q Hlt.
  unfold compare_state_dicts.
  apply compare_state_dicts_fuel_irrelevant; lia.
Qed.

(** The differ always ends: it returns a diff or raises. *)
Lemma compare_state_lists_body_terminates f cl dl p :
  (forall cm dm q, In (VDict cm) cl -> In (VDict dm) dl ->
                   f cm dm q <> OutOfFuel) ->
  compare_state_lists_body f cl dl p <> OutOfFuel.
Proof.
  intros H. unfold compare_state_lists_body.
  destruct cl as [|first cl']; [discriminate|].
  destruct dl as [|dfirst dl']; [discriminate|].
  assert (Hs : select_unique_key first <> OutOfFuel).
  { unfold select_unique_key, contains_name, first_key.
    destruct first as [[| | |]|[|[]]|]; simpl; try discriminate;
      match goal with |- (if ?b then _ else _) <> _ => destruct b end;
      discriminate. }
  destruct (select_unique_key first) as [uk| |]; simpl;
    try discriminate; try congruence.
  assert (Hb : forall l, build_state_dict uk l <> OutOfFuel).
  { intros l. apply for_each_terminates. intros acc x _.
    unfold item_key. destruct x as [|m|]; simpl; try discriminate.
    destruct (lookup uk m) as [[| |]|]; simpl; discriminate. }
  destruct (build_state_dict uk (first :: cl')) as [cd| |] eqn:Ec;
    simpl; try discriminate; [|exfalso; eapply Hb; eassumption].
  destruct (build_state_dict uk (dfirst :: dl')) as [dd| |] eqn:Ed;
    simpl; try discriminate; [|exfalso; eapply Hb; eassumption].
  apply for_each_terminates. intros acc [key item] Hin.
  unfold changed_item_step.
  destruct (sd_get key dd) as [ditem|] eqn:Eg; [|discriminate].
  destruct (dict_eqb item ditem); simpl; [discriminate|].
  assert (Hf : f item ditem (elem_path p key) <> OutOfFuel).
  { apply H.
    - eapply build_state_dict_In; eassumption.
    - apply sd_get_In in Eg as [k Hk]. eapply build_state_dict_In; eassumption. }
  destruct (f item ditem (elem_path p key)); simpl; congruence.
Qed.

Lemma compare_state_dicts_body_terminates f c d p :
  (forall cm dm q, depth_m cm + depth_m dm < depth_m c + depth_m d ->
                   f cm dm q <> OutOfFuel) ->
  compare_state_dicts_body f c d p <> OutOfFuel.
Proof.
  intros H. unfold compare_state_dicts_body.
  assert (H1 : forall acc, for_each (current_key_step f d p) c acc <> OutOfFuel).
  { apply for_each_terminates. intros acc [key cv] Hin.
    unfold current_key_step.
    destruct (lookup key d) as [dv|] eqn:El; [|discriminate].
    apply lookup_In in El.
    pose proof (depth_in_dict _ _ _ Hin) as Dc.
    pose proof (depth_in_dict _ _ _ El) as Dd.
    destruct cv as [cs|cm|cl], dv as [ds|dm|dl];
      try (match goal with |- (if ?b then _ else _) <> _ => destruct b end;
           discriminate).
    - assert (Hf : f cm dm (key_path p key) <> OutOfFuel).
      { apply H. unfold depth_m in *. lia. }
      destruct (f cm dm (key_path p key)); simpl; congruence.
    - assert (Hf : compare_state_lists_body f cl dl (key_path p key)
                   <> OutOfFuel).
      { apply compare_state_lists_body_terminates. intros cm dm q Hc Hd.
        apply H. apply depth_in_list in Hc, Hd. unfold depth_m in *. lia. }
      destruct (compare_state_lists_body f cl dl (key_path p key));
        simpl; congruence. }
  destruct (for_each _ c empty_diff) as [d1| |] eqn:E1; simpl;
    try discriminate; [|exfalso; eapply H1; eassumption].
  apply for_each_terminates. intros acc [key dv] Hin.
  unfold desired_key_step.
  destruct (negb (in_dict key c)); [|discriminate].
  destruct dv as [ds|dm|dl]; try discriminate.
  assert (Hf : f [] dm (key_path p key) <> OutOfFuel).
  { apply H. pose proof (depth_in_dict _ _ _ Hin) as Dd.
    unfold depth_m in *. simpl (depth (VDict [])). lia. }
  destruct (f [] dm (key_path p key)); simpl; congruence.
Qed.

Lemma compare_state_dicts_fuel_terminates n :
  forall c d p, depth_m c + depth_m d < n ->
                compare_state_dicts_fuel n c d p <> OutOfFuel.
Proof.
  induction n as [|n IH]; intros c d p Hn; [lia|]. simpl.
  apply compare_state_dicts_body_terminates. intros cm dm q Hlt.
  apply IH. lia.
Qed.

Lemma compare_state_dicts_terminates c d p :
  compare_state_dicts c d p <> OutOfFuel.
Proof.
  apply compare_state_dicts_fuel_terminates. lia.
Qed.

Lemma compare_state_lists_terminates cl dl p :
  compare_state_lists cl dl p <> OutOfFuel.
Proof.
  apply compare_state_lists_body_terminates. intros.
  apply compare_state_dicts_terminates.
Qed.

(** ** Merging sub-diffs *)

Lemma extend_empty_r d : extend d empty_diff = d.
Proof. destruct d; unfold extend; simpl. rewrite !app_nil_r. reflexivity. Qed.

Lemma extend_empty_l d : extend empty_diff d = d.
Proof. destruct d; reflexivity. Qed.

Lemma extend_assoc a b c : extend (extend a b) c = extend a (extend b c).
Proof. unfold extend; simpl. rewrite !app_assoc. reflexivity. Qed.

Lemma for_each_additive (A : Type) (step : diff -> A -> result diff) l :
  additive step ->
  forall acc,
    for_each step l acc = r <- for_each step l empty_diff ;; Ret (extend acc r).
Proof.
  intros Hadd. induction l as [|x l IH]; intros acc; simpl.
  - rewrite extend_empty_r. reflexivity.
  - rewrite (Hadd acc x).
    destruct (step empty_diff x) as [r| |]; simpl; try reflexivity.
    rewrite (IH (extend acc r)), (IH r).
    destruct (for_each step l empty_diff) as [r2| |]; simpl; try reflexivity.
    rewrite extend_assoc. reflexivity.
Qed.

Lemma current_key_step_additive f d p : additive (current_key_step f d p).
Proof.
  intros acc [key cv]. unfold current_key_step.
  destruct (lookup key d) as [dv|].
  - destruct cv as [cs|cm|cl], dv as [ds|dm|dl];
      try (destruct (negb (value_eqb _ _)); simpl;
           [destruct acc; unfold append_changed, extend; simpl;
            rewrite ?app_nil_r; reflexivity
           |rewrite extend_empty_r; reflexivity]).
    + destruct (f cm dm (key_path p key)); reflexivity.
    + destruct (compare_state_lists_body f cl dl (key_path p key)); reflexivity.
  - simpl. destruct acc; unfold append_removed, extend; simpl.
    rewrite !app_nil_r. reflexivity.
Qed.

Lemma desired_key_step_additive f c p : additive (desired_key_step f c p).
Proof.
  intros acc [key dv]. unfold desired_key_step.
  destruct (negb (in_dict key c)); simpl.
  - destruct dv as [ds|dm|dl]; simpl;
      try (destruct acc; unfold append_added, extend; simpl;
           rewrite !app_nil_r; reflexivity).
    destruct (f [] dm (key_path p key)); simpl; try reflexivity.
    destruct acc; unfold extend_added, extend; simpl.
    rewrite !app_nil_r. reflexivity.
  - rewrite extend_empty_r. reflexivity.
Qed.

Lemma changed_item_step_additive f p dd : additive (changed_item_step f p dd).
Proof.
  intros acc [key item]. unfold changed_item_step.
  destruct (sd_get key dd) as [ditem|]; simpl.
  - destruct (negb (dict_eqb item ditem)); simpl.
    + destruct (f item ditem (elem_path p key)); reflexivity.
    + rewrite extend_empty_r. reflexivity.
  - rewrite extend_empty_r. reflexivity.
Qed.

(** ** Paths *)

Lemma append_assoc (a b c : string) : ((a ++ b) ++ c = a ++ (b ++ c))%string.
Proof. induction a as [|ch a IH]; simpl; [reflexivity|]. rewrite IH. reflexivity. Qed.

Lemma key_path_elem_path p k key :
  key_path (elem_path p k) key = (elem_path p k ++ "." ++ key)%string.
Proof. destruct p; reflexivity. Qed.

(** ** C6: the empty-list sentinels *)

(** C6.  When the current sequence is empty the Sequence Differ returns the
    single Removed record [{path, message = "Current state list is empty"}]
    and nothing else, whatever the desired sequence holds; when the current
    sequence is non-empty and the desired one is empty it returns the single
    Added record [{path, message = "Desired state list is empty"}].  Both
    records carry a message and neither an old nor a new value. *)
Theorem empty_list_sentinels (D : list value) (x : value) (xs : list value)
  (P : string) :
  compare_state_lists [] D P =
    Ret (mk_diff [mk_record P None None (Some "Current state list is empty")]
                 [] [])
  /\ compare_state_lists (x :: xs) [] P =
    Ret (mk_diff []
                 [mk_record P None None (Some "Desired state list is empty")]
                 []).
Proof. split; reflexivity. Qed.

(** ** C7: the identity key *)

(** C7.  On a first element that is a mapping, the identity key is ["name"]
    when the mapping has that key and its first key otherwise (an empty
    mapping raises [IndexError]); elements are matched by the value under
    that key: the lists [[{name: nginx, image: v1}]] and
    [[{name: nginx, image: v2}]] give no Added, no Removed and the one
    Changed record at [P[nginx].image]. *)
Theorem identity_key_matching :
  (forall m : mapping,
      select_unique_key (VDict m) =
      if in_dict "name" m then Ret "name"
      else match m with
           | [] => Raise IndexError
           | (k, _) :: _ => Ret k
           end)
  /\ (forall P : string,
         compare_state_lists nginx_v1 nginx_v2 P =
         Ret (mk_diff [] []
                [changed_record (P ++ "[nginx].image") (str "v1") (str "v2")])).
Proof.
  split.
  - intros m. unfold select_unique_key; simpl.
    destruct (in_dict "name" m); [reflexivity|].
    destruct m as [|[k v] m]; reflexivity.
  - intros P.
    replace (P ++ "[nginx].image")%string
      with (key_path (elem_path P (SStr "nginx")) "image").
    + unfold compare_state_lists, compare_state_lists_body. simpl.
      unfold compare_state_dicts. simpl.
      unfold compare_state_dicts_body. simpl. reflexivity.
    + rewrite key_path_elem_path. unfold elem_path. simpl py_str.
      rewrite !append_assoc. reflexivity.
Qed.

(** ** The two loops of the mapping differ *)

Lemma compare_state_dicts_loops c d p :
  compare_state_dicts c d p =
  d1 <- for_each (current_key_step compare_state_dicts d p) c empty_diff ;;
  d2 <- for_each (desired_key_step compare_state_dicts c p) d empty_diff ;;
  Ret (extend d1 d2).
Proof.
  rewrite compare_state_dicts_unfold. unfold compare_state_dicts_body.
  destruct (for_each _ c empty_diff) as [d1| |]; simpl; try reflexivity.
  apply for_each_additive, desired_key_step_additive.
Qed.

Lemma bind_Ret_inv (A B : Type) (r : result A) (f : A -> result B) b :
  (x <- r ;; f x) = Ret b -> exists a, r = Ret a /\ f a = Ret b.
Proof. destruct r; simpl; try discriminate. eauto. Qed.

Lemma for_each_app_additive (A : Type) (step : diff -> A -> result diff) l1 l2 :
  additive step ->
  for_each step (l1 ++ l2) empty_diff =
  a1 <- for_each step l1 empty_diff ;;
  a2 <- for_each step l2 empty_diff ;;
  Ret (extend a1 a2).
Proof.
  intros Hadd. rewrite for_each_app.
  destruct (for_each step l1 empty_diff) as [a1| |]; simpl; try reflexivity.
  apply for_each_additive, Hadd.
Qed.

Lemma lookup_insert_other (V : Type) key k (v : V) d1 d2 :
  key <> k -> lookup key (d1 ++ (k, v) :: d2) = lookup key (d1 ++ d2).
Proof.
  intros Hne. rewrite !lookup_app. simpl.
  destruct (String.eqb key k) eqn:E; [|reflexivity].
  apply String.eqb_eq in E. contradiction.
Qed.

Lemma lookup_None_neq (V : Type) key k (v : V) d :
  lookup k d = None -> In (key, v) d -> key <> k.
Proof.
  intros Hn Hin ->. apply in_dict_In in Hin.
  unfold in_dict in Hin. rewrite Hn in Hin. discriminate.
Qed.

(** ** C5: a removed key is one record *)

(** C5.  Let key [k] be absent from the desired mapping [D].  Inserting the
    entry [k: m], with [m] a mapping (empty or not), anywhere into the
    current mapping adds exactly one record to the diff: the Removed record
    whose path is the child path of [k] and whose old value is the whole
    subtree [m].  The added and changed lists stay as they were. *)
Theorem removed_key_single_record (C1 C2 D : mapping) (P k : string)
  (m : mapping) (r' : diff) :
  lookup k D = None ->
  compare_state_dicts (C1 ++ C2) D P = Ret r' ->
  exists r1 r2,
    removed r' = (r1 ++ r2)%list /\
    compare_state_dicts (C1 ++ (k, VDict m) :: C2) D P =
    Ret (mk_diff (r1 ++ removed_record (key_path P k) (VDict m) :: r2)
                 (added r') (changed r')).
Proof.
  intros Hk H. rewrite compare_state_dicts_loops in H |- *.
  apply bind_Ret_inv in H as (d1 & H1 & H).
  apply bind_Ret_inv in H as (b & H2 & [= <-]).
  rewrite for_each_app_additive in H1 by apply current_key_step_additive.
  apply bind_Ret_inv in H1 as (a1 & Ha1 & H1).
  apply bind_Ret_inv in H1 as (a2 & Ha2 & [= <-]).
  exists (removed a1), (removed a2 ++ removed b)%list. split.
  { simpl. rewrite app_assoc. reflexivity. }
  rewrite for_each_app_additive by apply current_key_step_additive.
  rewrite Ha1. simpl. rewrite Hk. simpl.
  rewrite for_each_additive by apply current_key_step_additive.
  rewrite Ha2. simpl.
  rewrite (for_each_ext
             (desired_key_step compare_state_dicts (C1 ++ (k, VDict m) :: C2) P)
             (desired_key_step compare_state_dicts (C1 ++ C2) P)).
  2:{ intros acc [key dv] Hin. unfold desired_key_step, in_dict.
      rewrite lookup_insert_other; [reflexivity|].
      eapply lookup_None_neq; eassumption. }
  rewrite H2. simpl. unfold extend; simpl.
  rewrite <- !app_assoc. reflexivity.
Qed.

Lemma removed_key_single_record_witness :
  exists r1 r2,
    removed (mk_diff [] [] []) = (r1 ++ r2)%list /\
    compare_state_dicts
      ([("kind", str "Deployment")] ++
       ("spec", VDict [("replicas", int 3)]) :: [])
      [("kind", str "Deployment")] "" =
    Ret (mk_diff
           (r1 ++ removed_record (key_path "" "spec")
                    (VDict [("replicas", int 3)]) :: r2)
           (added (mk_diff [] [] [])) (changed (mk_diff [] [] []))).
Proof.
  apply (@removed_key_single_record
           [("kind", str "Deployment")] [] [("kind", str "Deployment")]
           "" "spec" [("replicas", int 3)] (mk_diff [] [] [])).
  - reflexivity.
  - reflexivity.
Defined.

(** ** C4: a new key is decomposed into its leaves *)

Lemma new_key_step m p :
  Forall (fun kv : string * value =>
            forall q, match snd kv with
                      | VDict dm =>
                          compare_state_dicts [] dm q =
                          Ret (mk_diff [] (leaf_records q (VDict dm)) [])
                      | _ => True
                      end) m ->
  forall c, (forall k v, In (k, v) m -> in_dict k c = false) ->
  for_each (desired_key_step compare_state_dicts c p) m empty_diff =
  Ret (mk_diff [] (leaf_records p (VDict m)) []).
Proof.
  induction 1 as [|[k w] rest Hw Hrest IH]; intros c Hc; [reflexivity|].
  cbn [for_each]. unfold desired_key_step at 1.
  rewrite (Hc k w (or_introl eq_refl)). cbn [negb].
  assert (E : match w with
              | VDict dm =>
                  sub_diff <- compare_state_dicts [] dm (key_path p k) ;;
                  Ret (extend_added empty_diff sub_diff)
              | _ => Ret (append_added empty_diff
                            (added_record (key_path p k) w))
              end = Ret (mk_diff [] (leaf_records (key_path p k) w) [])).
  { destruct w as [s|dm|l]; try reflexivity.
    simpl in Hw. rewrite Hw. reflexivity. }
  rewrite E. cbn [bind].
  rewrite for_each_additive by apply desired_key_step_additive.
  rewrite IH by (intros; eapply Hc; right; eassumption).
  reflexivity.
Qed.

(** Against an empty current mapping every leaf of the desired mapping is
    one Added record, and nothing is removed or changed. *)
Lemma compare_empty_current (m : mapping) (p : string) :
  compare_state_dicts [] m p = Ret (mk_diff [] (leaf_records p (VDict m)) []).
Proof.
  revert p.
  enough (H : forall v q, match v with
                          | VDict dm =>
                              compare_state_dicts [] dm q =
                              Ret (mk_diff [] (leaf_records q (VDict dm)) [])
                          | _ => True
                          end) by (intros p; exact (H (VDict m) p)).
  induction v as [s|dm IH|l IH] using value_nested_ind; intros q; try exact I.
  rewrite compare_state_dicts_loops. cbn [for_each bind].
  rewrite (new_key_step q IH); [reflexivity|]. reflexivity.
Qed.

Lemma desired_loop_only_added f c p l b :
  for_each (desired_key_step f c p) l empty_diff = Ret b ->
  removed b = [] /\ changed b = [].
Proof.
  revert b. induction l as [|[k v] l IH]; intros b; cbn [for_each].
  - intros [= <-]. auto.
  - intros H. apply bind_Ret_inv in H as (r & Hr & H).
    rewrite for_each_additive in H by apply desired_key_step_additive.
    apply bind_Ret_inv in H as (r2 & Hr2 & [= <-]).
    destruct (IH _ Hr2) as [E1 E2]. cbn [extend removed changed].
    rewrite E1, E2, !app_nil_r.
    unfold desired_key_step in Hr.
    destruct (negb (in_dict k c)); [|injection Hr as <-; auto].
    destruct v as [s|dm|l']; try (injection Hr as <-; auto).
    apply bind_Ret_inv in Hr as (sub & _ & [= <-]). auto.
Qed.

(** C4.  Let key [k] be absent from the current mapping [C].  Inserting the
    entry [k: v] anywhere into the desired mapping adds to the diff exactly
    the Added records [leaf_records (key_path P k) v]: one record per leaf
    field when [v] is a mapping, recursively, and the single record
    [{path, new_value = v}] when [v] is a scalar or a sequence; the removed
    and changed lists stay as they were.  For current [{kind: Deployment}]
    and desired [{kind: Deployment, spec: {replicas: 3}}] the diff is the one
    Added record at [spec.replicas] with value 3. *)
Theorem added_key_decomposed :
  (forall (C D1 D2 : mapping) (P k : string) (v : value) (r' : diff),
      lookup k C = None ->
      compare_state_dicts C (D1 ++ D2) P = Ret r' ->
      exists a1 a2,
        added r' = (a1 ++ a2)%list /\
        compare_state_dicts C (D1 ++ (k, v) :: D2) P =
        Ret (mk_diff (removed r')
                     (a1 ++ leaf_records (key_path P k) v ++ a2)
                     (changed r')))
  /\ (forall (P : string) (s : scalar),
         leaf_records P (VScalar s) = [added_record P (VScalar s)])
  /\ (forall (P : string) (l : list value),
         leaf_records P (VList l) = [added_record P (VList l)])
  /\ compare_state_dicts deployment deployment_spec "" =
     Ret (mk_diff [] [added_record "spec.replicas" (int 3)] []).
Proof.
  split; [|repeat split; reflexivity].
  intros C D1 D2 P k v r' Hk H.
  rewrite compare_state_dicts_loops in H |- *.
  apply bind_Ret_inv in H as (d1 & H1 & H).
  apply bind_Ret_inv in H as (b & H2 & [= <-]).
  rewrite for_each_app_additive in H2 by apply desired_key_step_additive.
  apply bind_Ret_inv in H2 as (b1 & Hb1 & H2).
  apply bind_Ret_inv in H2 as (b2 & Hb2 & [= <-]).
  exists (added d1 ++ added b1)%list, (added b2). split.
  { simpl. rewrite app_assoc. reflexivity. }
  rewrite (for_each_ext
             (current_key_step compare_state_dicts (D1 ++ (k, v) :: D2) P)
             (current_key_step compare_state_dicts (D1 ++ D2) P)).
  2:{ intros acc [key cv] Hin. unfold current_key_step.
      rewrite lookup_insert_other; [reflexivity|].
      eapply lookup_None_neq; eassumption. }
  rewrite H1. cbn [bind].
  rewrite for_each_app_additive by apply desired_key_step_additive.
  rewrite Hb1. cbn [bind for_each].
  assert (E : desired_key_step compare_state_dicts C P empty_diff (k, v) =
              Ret (mk_diff [] (leaf_records (key_path P k) v) [])).
  { unfold desired_key_step, in_dict. rewrite Hk. cbn [negb].
    destruct v as [s|dm|l]; try reflexivity.
    rewrite compare_empty_current. reflexivity. }
  rewrite E. cbn [bind].
  rewrite for_each_additive by apply desired_key_step_additive.
  rewrite Hb2. cbn [bind].
  assert (Er : removed b1 = [] /\ removed b2 = [] /\ changed b1 = []
               /\ changed b2 = []).
  { destruct (desired_loop_only_added _ _ _ _ Hb1) as [-> ->].
    destruct (desired_loop_only_added _ _ _ _ Hb2) as [-> ->]. auto. }
  destruct Er as (R1 & R2 & C1' & C2').
  unfold extend; simpl. rewrite R1, R2, C1', C2'. simpl.
  rewrite !app_nil_r, <- !app_assoc. reflexivity.
Qed.

Lemma added_key_decomposed_witness :
  exists a1 a2,
    added (mk_diff [] [] []) = (a1 ++ a2)%list /\
    compare_state_dicts deployment
      (deployment ++ ("spec", VDict [("replicas", int 3)]) :: []) "" =
    Ret (mk_diff (removed (mk_diff [] [] []))
           (a1 ++ leaf_records (key_path "" "spec")
                    (VDict [("replicas", int 3)]) ++ a2)
           (changed (mk_diff [] [] []))).
Proof.
  apply (proj1 added_key_decomposed deployment deployment []
           "" "spec" (VDict [("replicas", int 3)]) (mk_diff [] [] [])).
  - reflexivity.
  - reflexivity.
Defined.

(** ** Python's equality *)

Lemma scalar_eqb_refl a : scalar_eqb a a = true.
Proof.
  destruct a as [|b|z|s]; simpl; auto using Z.eqb_refl, String.eqb_refl.
  destruct b; reflexivity.
Qed.

Lemma scalar_eqb_sym a b : scalar_eqb a b = scalar_eqb b a.
Proof.
  destruct a as [|x|x|x], b as [|y|y|y]; simpl;
    auto using Z.eqb_sym, String.eqb_sym.
  destruct x, y; reflexivity.
Qed.

Lemma scalar_eqb_trans a b c :
  scalar_eqb a b = true -> scalar_eqb a c = scalar_eqb b c.
Proof.
  destruct a as [|x|x|x], b as [|y|y|y]; simpl; try discriminate; intros H.
  - reflexivity.
  - apply Bool.eqb_prop in H. subst. reflexivity.
  - apply Z.eqb_eq in H. subst.
    destruct c as [|z|z|z]; simpl; try reflexivity.
    destruct x, z; reflexivity.
  - apply Z.eqb_eq in H. subst.
    destruct c as [|z|z|z]; simpl; try reflexivity.
    destruct y, z; reflexivity.
  - apply Z.eqb_eq in H. subst. reflexivity.
  - apply String.eqb_eq in H. subst. reflexivity.
Qed.

Lemma value_eqb_dict m m' :
  value_eqb (VDict m) (VDict m') =
  Nat.eqb (List.length m) (List.length m') &&
  forallb (fun kv : string * value =>
             match lookup (fst kv) m' with
             | Some v' => value_eqb (snd kv) v'
             | None => false
             end) m.
Proof.
  cbn [value_eqb]. f_equal.
  induction m as [|[k v] m IH]; [reflexivity|].
  cbn [forallb fst snd]. destruct (lookup k m'); [|reflexivity].
  rewrite IH. reflexivity.
Qed.

Lemma value_eqb_list_cons x l y l' :
  value_eqb (VList (x :: l)) (VList (y :: l')) =
  value_eqb x y && value_eqb (VList l) (VList l').
Proof. reflexivity. Qed.

Lemma wf_value_dict m :
  wf_value (VDict m) =
  unique_keys m && forallb (fun kv : string * value => wf_value (snd kv)) m.
Proof.
  cbn [wf_value]. f_equal.
  induction m as [|[k v] m IH]; [reflexivity|].
  cbn [forallb snd]. rewrite IH. reflexivity.
Qed.

Lemma wf_value_list l : wf_value (VList l) = forallb wf_value l.
Proof.
  cbn [wf_value].
  induction l as [|v l IH]; [reflexivity|].
  cbn [forallb]. rewrite IH. reflexivity.
Qed.

Lemma wf_lookup m k v :
  wf_mapping m = true -> lookup k m = Some v -> wf_value v = true.
Proof.
  unfold wf_mapping. rewrite wf_value_dict. intros H Hl.
  apply andb_prop in H as [_ H]. rewrite forallb_forall in H.
  apply lookup_In in Hl. exact (H _ Hl).
Qed.

Lemma wf_In_dict m k v :
  wf_mapping m = true -> In (k, v) m -> wf_value v = true.
Proof.
  unfold wf_mapping. rewrite wf_value_dict. intros H Hin.
  apply andb_prop in H as [_ H]. rewrite forallb_forall in H.
  exact (H _ Hin).
Qed.

Lemma wf_unique m : wf_mapping m = true -> unique_keys m = true.
Proof.
  unfold wf_mapping. rewrite wf_value_dict. intros H.
  apply andb_prop in H as [H _]. exact H.
Qed.

(** On well-formed trees whose scalars are null, booleans, integers and
    strings, Python's [==] is reflexive; it is not on the float NaN, which is
    not among the scalars. *)
Lemma value_eqb_refl v : wf_value v = true -> value_eqb v v = true.
Proof.
  induction v as [s|m IH|l IH] using value_nested_ind; intros Hwf.
  - apply scalar_eqb_refl.
  - rewrite value_eqb_dict, Nat.eqb_refl. cbn [andb].
    apply forallb_forall. intros [k v] Hin. cbn [fst snd].
    rewrite (lookup_unique _ _ _ (wf_unique _ Hwf) Hin).
    rewrite Forall_forall in IH. apply (IH _ Hin).
    eapply wf_In_dict; eassumption.
  - rewrite wf_value_list in Hwf.
    induction l as [|x l IHl]; [reflexivity|].
    rewrite value_eqb_list_cons. cbn [forallb] in Hwf.
    apply andb_prop in Hwf as [Hx Hl].
    inversion IH as [|? ? Px Pl]; subst.
    rewrite (Px Hx). cbn [andb]. apply IHl; assumption.
Qed.

(** ** The dictionaries of the sequence differ, continued *)

Lemma sd_get_set k key item d :
  sd_get k (sd_set key item d) =
  if scalar_eqb k key then Some item else sd_get k d.
Proof.
  induction d as [|[k' m] d IH]; cbn [sd_set sd_get].
  - destruct (scalar_eqb k key); reflexivity.
  - destruct (scalar_eqb key k') eqn:E; cbn [sd_get].
    + rewrite (scalar_eqb_sym k key).
      rewrite (scalar_eqb_trans _ _ k E), (scalar_eqb_sym k' k).
      destruct (scalar_eqb k k'); reflexivity.
    + rewrite IH. destruct (scalar_eqb k k') eqn:E2; [|reflexivity].
      rewrite (scalar_eqb_trans _ _ key E2), (scalar_eqb_sym k' key), E.
      reflexivity.
Qed.

Lemma sd_set_distinct key item d : sd_distinct d -> sd_distinct (sd_set key item d).
Proof.
  induction d as [|[k' m] d IH]; cbn [sd_set sd_distinct]; [auto|].
  intros [Hk Hd]. destruct (scalar_eqb key k') eqn:E; cbn [sd_distinct].
  - auto.
  - split; [|auto]. rewrite sd_get_set, (scalar_eqb_sym k' key), E. exact Hk.
Qed.

Lemma sd_get_present k key item d :
  In (key, item) d -> scalar_eqb k key = true -> sd_get k d <> None.
Proof.
  induction d as [|[k' m] d IH]; cbn [sd_get In]; [tauto|].
  intros [[= -> ->]|Hin] E.
  - rewrite E. discriminate.
  - destruct (scalar_eqb k k'); [discriminate|auto].
Qed.

Lemma sd_get_distinct key item d :
  sd_distinct d -> In (key, item) d -> sd_get key d = Some item.
Proof.
  induction d as [|[k' m] d IH]; cbn [sd_get sd_distinct In]; [tauto|].
  intros [Hk Hd] [[= -> ->]|Hin].
  - rewrite scalar_eqb_refl. reflexivity.
  - destruct (scalar_eqb key k') eqn:E; [|auto].
    exfalso. rewrite scalar_eqb_sym in E.
    exact (sd_get_present _ _ _ _ Hin E Hk).
Qed.

Lemma build_state_dict_distinct_acc uk items :
  forall acc d,
    for_each (fun d item => km <- item_key uk item ;;
                            Ret (sd_set (fst km) (snd km) d)) items acc = Ret d ->
    sd_distinct acc -> sd_distinct d.
Proof.
  induction items as [|item items IH]; intros acc d; cbn [for_each].
  - intros [= <-]. auto.
  - intros H Hacc. apply bind_Ret_inv in H as (acc' & Ha & H).
    apply bind_Ret_inv in Ha as (km & _ & [= <-]).
    eapply IH; [eassumption|]. apply sd_set_distinct, Hacc.
Qed.

Lemma build_state_dict_distinct uk items d :
  build_state_dict uk items = Ret d -> sd_distinct d.
Proof.
  intros H. eapply build_state_dict_distinct_acc; [exact H|exact I].
Qed.

(** ** C1: diffing a tree against itself *)

Lemma fold_left_skip (A B : Type) (step : B -> A -> B) l :
  (forall acc x, In x l -> step acc x = acc) ->
  forall acc, fold_left step l acc = acc.
Proof.
  induction l as [|x l IH]; intros H acc; cbn [fold_left]; [reflexivity|].
  rewrite (H acc x (or_introl eq_refl)).
  apply IH. intros; apply H; right; assumption.
Qed.

Lemma identity_ready_dict m :
  identity_ready (VDict m) =
  forallb (fun kv : string * value => identity_ready (snd kv)) m.
Proof.
  cbn [identity_ready].
  induction m as [|[k v] m IH]; [reflexivity|].
  cbn [forallb snd]. rewrite IH. reflexivity.
Qed.

Lemma identity_key_selected first uk :
  identity_key_of first = Some uk -> select_unique_key first = Ret uk.
Proof.
  destruct first as [s|m|l]; cbn [identity_key_of]; try discriminate.
  unfold select_unique_key. cbn [contains_name bind].
  destruct (in_dict "name" m).
  - intros [= <-]. reflexivity.
  - destruct m as [|[k v] m]; [discriminate|]. intros [= <-]. reflexivity.
Qed.

Lemma has_scalar_key_item uk item :
  has_scalar_key uk item = true ->
  exists k m, item = VDict m /\ item_key uk item = Ret (k, m).
Proof.
  destruct item as [s|m|l]; cbn [has_scalar_key]; try discriminate.
  cbn [item_key]. destruct (lookup uk m) as [[k| |]|]; try discriminate.
  eauto.
Qed.

Lemma build_state_dict_returns uk l :
  forallb (has_scalar_key uk) l = true ->
  exists d, build_state_dict uk l = Ret d.
Proof.
  intros H. rewrite forallb_forall in H.
  apply for_each_returns. intros acc x Hin.
  destruct (has_scalar_key_item _ _ (H _ Hin)) as (k & m & _ & ->).
  cbn [bind]. eauto.
Qed.

Lemma sd_mem_In key item d : In (key, item) d -> sd_mem key d = true.
Proof.
  intros Hin. unfold sd_mem.
  pose proof (sd_get_present key _ _ _ Hin (scalar_eqb_refl key)) as H.
  destruct (sd_get key d); [reflexivity|contradiction].
Qed.

(** A keyed sequence of well-formed mappings shows no difference with
    itself. *)
Lemma compare_state_lists_self f l p :
  keyed_list l = true -> wf_value (VList l) = true ->
  compare_state_lists_body f l l p = Ret empty_diff.
Proof.
  intros Hk Hwf. unfold keyed_list in Hk.
  destruct l as [|first rest]; [discriminate|].
  destruct (identity_key_of first) as [uk|] eqn:Ek; [|discriminate].
  unfold compare_state_lists_body.
  rewrite (identity_key_selected _ Ek). cbn [bind].
  destruct (build_state_dict_returns _ _ Hk) as [d Hd].
  rewrite Hd. cbn [bind].
  rewrite !fold_left_skip.
  - apply for_each_skip. intros acc [key item] Hin.
    unfold changed_item_step.
    rewrite (sd_get_distinct _ _ _ (build_state_dict_distinct _ _ Hd) Hin).
    unfold dict_eqb. rewrite value_eqb_refl; [reflexivity|].
    rewrite wf_value_list, forallb_forall in Hwf. apply Hwf.
    eapply build_state_dict_In; eassumption.
  - intros acc [key item] Hin. unfold added_item_step, removed_item_step.
    rewrite (sd_mem_In _ _ _ Hin). reflexivity.
  - intros acc [key item] Hin. unfold added_item_step, removed_item_step.
    rewrite (sd_mem_In _ _ _ Hin). reflexivity.
Qed.

(** C1, as the code has it.  Let [T] be a well-formed mapping whose scalars
    are null, booleans, integers or strings (no floating-point number, so no
    NaN, for which [nan != nan] holds), and in which every sequence reached
    through mappings alone is non-empty and consists of mappings that all
    hold the identity key of the first one with a scalar value.  Then
    diffing [T] against itself at any path returns empty removed, added and
    changed lists. *)
Theorem identity_diff_empty (T : mapping) (P : string) :
  wf_mapping T = true ->
  identity_ready (VDict T) = true ->
  compare_state_dicts T T P = Ret empty_diff.
Proof.
  revert P.
  enough (H : forall v, match v with
                        | VDict m =>
                            forall p, wf_mapping m = true ->
                                      identity_ready (VDict m) = true ->
                                      compare_state_dicts m m p = Ret empty_diff
                        | _ => True
                        end) by (intros P; exact (H (VDict T) P)).
  induction v as [s|m IH|l IH] using value_nested_ind; try exact I.
  intros p Hwf Hready.
  rewrite identity_ready_dict, forallb_forall in Hready.
  rewrite Forall_forall in IH.
  rewrite compare_state_dicts_loops.
  rewrite for_each_skip; cbn [bind].
  - rewrite for_each_skip; [reflexivity|].
    intros acc [k v] Hin. unfold desired_key_step.
    rewrite (in_dict_In _ _ _ Hin). reflexivity.
  - intros acc [k v] Hin. unfold current_key_step.
    rewrite (lookup_unique _ _ _ (wf_unique _ Hwf) Hin).
    pose proof (wf_In_dict _ _ _ Hwf Hin) as Hwv.
    specialize (Hready _ Hin). specialize (IH _ Hin). cbn [snd] in *.
    destruct v as [s|cm|cl].
    + rewrite value_eqb_refl by assumption. reflexivity.
    + rewrite IH by assumption. cbn [bind]. rewrite extend_empty_r. reflexivity.
    + rewrite compare_state_lists_self by assumption.
      cbn [bind]. rewrite extend_empty_r. reflexivity.
Qed.

Lemma identity_diff_empty_witness :
  compare_state_dicts manifest_nginx manifest_nginx "" = Ret empty_diff.
Proof.
  apply (identity_diff_empty manifest_nginx ""); reflexivity.
Defined.

(** C1 as stated fails: a tree that holds an empty sequence, diffed against
    itself, yields the Removed sentinel of the Sequence Differ. *)
Lemma identity_diff_empty_list_counterexample :
  wf_mapping [("a", VList [])] = true /\
  compare_state_dicts [("a", VList [])] [("a", VList [])] "" =
    Ret (mk_diff [message_record "a" "Current state list is empty"] [] []) /\
  compare_state_dicts [("a", VList [])] [("a", VList [])] "" <> Ret empty_diff.
Proof. repeat split; [discriminate]. Qed.

(** ** C2: when the differ returns *)

Lemma named_lists_dict m :
  named_lists (VDict m) =
  forallb (fun kv : string * value => named_lists (snd kv)) m.
Proof.
  cbn [named_lists].
  induction m as [|[k v] m IH]; [reflexivity|].
  cbn [forallb snd]. rewrite IH. reflexivity.
Qed.

Lemma named_lists_list l :
  named_lists (VList l) =
  forallb (fun w => has_scalar_key "name" w && named_lists w) l.
Proof.
  cbn [named_lists].
  induction l as [|v l IH]; [reflexivity|].
  cbn [forallb]. rewrite IH. reflexivity.
Qed.

Lemma named_In_dict m k v :
  named_lists (VDict m) = true -> In (k, v) m -> named_lists v = true.
Proof.
  rewrite named_lists_dict, forallb_forall. intros H Hin. exact (H _ Hin).
Qed.

Lemma named_In_list l v :
  named_lists (VList l) = true -> In v l ->
  has_scalar_key "name" v = true /\ named_lists v = true.
Proof.
  rewrite named_lists_list, forallb_forall. intros H Hin.
  apply andb_prop. exact (H _ Hin).
Qed.

Lemma named_first_key m :
  has_scalar_key "name" (VDict m) = true ->
  select_unique_key (VDict m) = Ret "name".
Proof.
  cbn [has_scalar_key]. unfold select_unique_key, in_dict.
  cbn [contains_name bind]. unfold in_dict.
  destruct (lookup "name" m); [reflexivity|discriminate].
Qed.

Lemma compare_state_lists_body_returns f cl dl p :
  named_lists (VList cl) = true -> named_lists (VList dl) = true ->
  (forall cm dm q, In (VDict cm) cl -> In (VDict dm) dl ->
                   exists r, f cm dm q = Ret r) ->
  exists r, compare_state_lists_body f cl dl p = Ret r.
Proof.
  intros Hc Hd H. unfold compare_state_lists_body.
  destruct cl as [|first cl']; [eauto|].
  destruct dl as [|dfirst dl']; [eauto|].
  rewrite named_lists_list in Hc, Hd.
  assert (Hc' : forallb (has_scalar_key "name") (first :: cl') = true).
  { rewrite forallb_forall in Hc |- *. intros x Hx.
    apply Hc in Hx. apply andb_prop in Hx. tauto. }
  assert (Hd' : forallb (has_scalar_key "name") (dfirst :: dl') = true).
  { rewrite forallb_forall in Hd |- *. intros x Hx.
    apply Hd in Hx. apply andb_prop in Hx. tauto. }
  assert (Hf : select_unique_key first = Ret "name").
  { cbn [forallb] in Hc'. apply andb_prop in Hc' as [Hf _].
    destruct (has_scalar_key_item _ _ Hf) as (k & m & -> & _).
    apply named_first_key, Hf. }
  rewrite Hf. cbn [bind].
  destruct (build_state_dict_returns _ _ Hc') as [cd Ecd].
  destruct (build_state_dict_returns _ _ Hd') as [dd Edd].
  rewrite Ecd, Edd. cbn [bind].
  apply for_each_returns. intros acc [key item] Hin.
  unfold changed_item_step.
  destruct (sd_get key dd) as [ditem|] eqn:Eg; [|eauto].
  destruct (negb (dict_eqb item ditem)); [|eauto].
  destruct (H item ditem (elem_path p key)) as [r Hr].
  - eapply build_state_dict_In; eassumption.
  - apply sd_get_In in Eg as [k Hk]. eapply build_state_dict_In; eassumption.
  - rewrite Hr. cbn [bind]. eauto.
Qed.

Lemma compare_state_dicts_body_returns f c d p :
  named_lists (VDict c) = true -> named_lists (VDict d) = true ->
  (forall cm dm q, depth_m cm + depth_m dm < depth_m c + depth_m d ->
                   named_lists (VDict cm) = true ->
                   named_lists (VDict dm) = true ->
                   exists r, f cm dm q = Ret r) ->
  exists r, compare_state_dicts_body f c d p = Ret r.
Proof.
  intros Hc Hd H. unfold compare_state_dicts_body.
  destruct (for_each_returns (current_key_step f d p) c) with (acc := empty_diff)
    as [d1 E1].
  { intros acc [key cv] Hin. unfold current_key_step.
    destruct (lookup key d) as [dv|] eqn:El; [|eauto].
    apply lookup_In in El.
    pose proof (depth_in_dict _ _ _ Hin) as Dc.
    pose proof (depth_in_dict _ _ _ El) as Dd.
    pose proof (named_In_dict _ _ _ Hc Hin) as Nc.
    pose proof (named_In_dict _ _ _ Hd El) as Nd.
    destruct cv as [cs|cm|cl], dv as [ds|dm|dl];
      try (destruct (negb (value_eqb _ _)); eauto; fail).
    - destruct (H cm dm (key_path p key)) as [r Hr]; auto.
      { unfold depth_m in *. lia. }
      rewrite Hr. cbn [bind]. eauto.
    - destruct (compare_state_lists_body_returns f cl dl (key_path p key))
        as [r Hr]; auto.
      { intros cm dm q Hcm Hdm.
        destruct (named_In_list _ _ Nc Hcm) as [_ Ncm].
        destruct (named_In_list _ _ Nd Hdm) as [_ Ndm].
        apply H; auto.
        apply depth_in_list in Hcm, Hdm. unfold depth_m in *. lia. }
      rewrite Hr. cbn [bind]. eauto. }
  rewrite E1. cbn [bind].
  apply for_each_returns. intros acc [key dv] Hin.
  unfold desired_key_step.
  destruct (negb (in_dict key c)); [|eauto].
  destruct dv as [ds|dm|dl]; eauto.
  destruct (H [] dm (key_path p key)) as [r Hr]; auto.
  - pose proof (depth_in_dict _ _ _ Hin) as Dd.
    unfold depth_m in *. simpl (depth (VDict [])). lia.
  - eapply named_In_dict; eassumption.
  - rewrite Hr. cbn [bind]. eauto.
Qed.

Lemma compare_state_dicts_fuel_returns n :
  forall c d p,
    depth_m c + depth_m d < n ->
    named_lists (VDict c) = true -> named_lists (VDict d) = true ->
    exists r, compare_state_dicts_fuel n c d p = Ret r.
Proof.
  induction n as [|n IH]; intros c d p Hn Hc Hd; [lia|].
  cbn [compare_state_dicts_fuel].
  apply compare_state_dicts_body_returns; auto.
  intros cm dm q Hlt Hcm Hdm. apply IH; auto. lia.
Qed.

(** C2, as the code has it.  The diff algorithm always ends, with a Diff
    Result or with an exception; it returns a Diff Result, without raising,
    for every pair of trees in which each sequence, at any depth, holds only
    mappings that have the key ["name"] with a scalar value. *)
Theorem diff_returns_on_named_lists (C D : mapping) (P : string) :
  compare_state_dicts C D P <> OutOfFuel /\
  (named_lists (VDict C) = true -> named_lists (VDict D) = true ->
   exists r, compare_state_dicts C D P = Ret r).
Proof.
  split; [apply compare_state_dicts_terminates|].
  intros Hc Hd. apply compare_state_dicts_fuel_returns; auto.
Qed.

Lemma diff_returns_on_named_lists_witness :
  exists r,
    compare_state_dicts manifest_nginx
      [("spec", VDict [("containers", VList nginx_v2)])] "" = Ret r.
Proof.
  apply (proj2 (diff_returns_on_named_lists manifest_nginx
                  [("spec", VDict [("containers", VList nginx_v2)])] ""));
    reflexivity.
Defined.

(** C2 as stated fails: on two sequences of numbers the Sequence Differ
    raises [TypeError] while it selects the identity key. *)
Lemma diff_scalar_list_counterexample :
  wf_mapping [("a", VList [int 1])] = true /\
  wf_mapping [("a", VList [int 2])] = true /\
  compare_state_dicts [("a", VList [int 1])] [("a", VList [int 2])] "" =
    Raise TypeError.
Proof. repeat split. Qed.

(** ** C8: the field mismatch checker *)

Lemma lookup_dict_set (V : Type) f k (v : V) d :
  lookup f (dict_set k v d) = if String.eqb f k then Some v else lookup f d.
Proof.
  induction d as [|[k' w] d IH]; cbn [dict_set lookup]; [reflexivity|].
  destruct (String.eqb k k') eqn:E; cbn [lookup].
  - apply String.eqb_eq in E. subst k'.
    destruct (String.eqb f k); reflexivity.
  - rewrite IH. destruct (String.eqb f k') eqn:E2; [|reflexivity].
    apply String.eqb_eq in E2. subst k'.
    rewrite String.eqb_sym, E. reflexivity.
Qed.

Lemma unique_keys_dict_set (V : Type) k (v : V) d :
  unique_keys d = true -> unique_keys (dict_set k v d) = true.
Proof.
  induction d as [|[k' w] d IH]; cbn [dict_set unique_keys]; [reflexivity|].
  intros H. apply andb_prop in H as [Hk Hd].
  destruct (String.eqb k k') eqn:E; cbn [unique_keys].
  - rewrite Hk, Hd. reflexivity.
  - rewrite (IH Hd), andb_true_r. unfold in_dict in *.
    rewrite lookup_dict_set, String.eqb_sym, E. exact Hk.
Qed.

Lemma check_mismatches_fold c d fs :
  check_mismatches c d fs = fold_left (mismatch_step c d) fs [].
Proof.
  unfold check_mismatches. generalize (@nil (string * bool)).
  induction fs as [|f fs IH]; intros acc; cbn [fold_left]; [reflexivity|].
  rewrite IH. unfold mismatch_step.
  destruct (negb (value_eqb (dict_get f c) (dict_get f d))); reflexivity.
Qed.

Lemma mismatch_fold_lookup c d fs : forall acc f,
  lookup f (fold_left (mismatch_step c d) fs acc) =
  if in_dec string_dec f fs
  then Some (negb (value_eqb (dict_get f c) (dict_get f d)))
  else lookup f acc.
Proof.
  induction fs as [|g fs IH]; intros acc f; cbn [fold_left]; [reflexivity|].
  rewrite IH. destruct (in_dec string_dec f fs) as [Hin|Hnin].
  - destruct (in_dec string_dec f (g :: fs)) as [_|Hn]; [reflexivity|].
    exfalso. apply Hn. right. assumption.
  - unfold mismatch_step. rewrite lookup_dict_set.
    destruct (String.eqb f g) eqn:E.
    + apply String.eqb_eq in E. subst g.
      destruct (in_dec string_dec f (f :: fs)) as [_|Hn]; [reflexivity|].
      exfalso. apply Hn. left. reflexivity.
    + apply String.eqb_neq in E.
      destruct (in_dec string_dec f (g :: fs)) as [[Heq|Hin]|_];
        [congruence|contradiction|reflexivity].
Qed.

Lemma mismatch_fold_unique c d fs : forall acc,
  unique_keys acc = true ->
  unique_keys (fold_left (mismatch_step c d) fs acc) = true.
Proof.
  induction fs as [|g fs IH]; intros acc H; cbn [fold_left]; [exact H|].
  apply IH. apply unique_keys_dict_set, H.
Qed.

Lemma mismatch_fold_ext c d c' d' fs : forall acc,
  (forall f, In f fs -> dict_get f c' = dict_get f c /\
                        dict_get f d' = dict_get f d) ->
  fold_left (mismatch_step c' d') fs acc = fold_left (mismatch_step c d) fs acc.
Proof.
  induction fs as [|g fs IH]; intros acc H; cbn [fold_left]; [reflexivity|].
  unfold mismatch_step at 2 4.
  destruct (H g (or_introl eq_refl)) as [-> ->].
  apply IH. intros f Hf. apply H. right. assumption.
Qed.

(** C8, as the code has it.  [check_mismatches] returns a mapping with
    exactly one boolean for every requested field and no other key; the
    boolean is true if and only if [current.get(field)] and
    [desired.get(field)] differ, where a field that is absent reads as
    [None]: a field that one side lacks is reported as mismatched unless the
    other side holds it with the value null.  The result depends on the two
    documents only through the requested fields. *)
Theorem check_mismatches_per_field (c d : mapping) (fs : list string) :
  (forall f,
      lookup f (check_mismatches c d fs) =
      if in_dec string_dec f fs
      then Some (negb (value_eqb (dict_get f c) (dict_get f d)))
      else None)
  /\ unique_keys (check_mismatches c d fs) = true
  /\ (forall c' d',
         (forall f, In f fs -> dict_get f c' = dict_get f c /\
                               dict_get f d' = dict_get f d) ->
         check_mismatches c' d' fs = check_mismatches c d fs).
Proof.
  repeat split.
  - intros f. rewrite check_mismatches_fold, mismatch_fold_lookup. reflexivity.
  - rewrite check_mismatches_fold. apply mismatch_fold_unique. reflexivity.
  - intros c' d' H. rewrite !check_mismatches_fold.
    apply mismatch_fold_ext, H.
Qed.

Lemma check_mismatches_per_field_witness :
  check_mismatches
    [("kind", str "Deployment"); ("spec", VDict [("replicas", int 1)])]
    [("kind", str "StatefulSet"); ("spec", VDict [("replicas", int 3)])]
    ["kind"; "apiVersion"] =
  check_mismatches [("kind", str "Deployment")] [("kind", str "StatefulSet")]
    ["kind"; "apiVersion"].
Proof.
  apply (proj2 (proj2 (check_mismatches_per_field
                         [("kind", str "Deployment")]
                         [("kind", str "StatefulSet")]
                         ["kind"; "apiVersion"]))).
  intros f [<-|[<-|[]]]; split; reflexivity.
Defined.

(** C8 as stated fails: the desired document lacks the field [kind]
    entirely and the current one holds it with the value null, yet the
    reported boolean is false. *)
Lemma check_mismatches_null_counterexample :
  lookup "kind" (@nil (string * value)) = None /\
  lookup "kind" [("kind", VScalar SNone)] = Some (VScalar SNone) /\
  check_mismatches [("kind", VScalar SNone)] [] ["kind"] = [("kind", false)].
Proof. repeat split. Qed.

(** ** C10: duplicate identity values *)

Lemma build_state_dict_step uk l :
  build_state_dict uk l = for_each (state_dict_step uk) l [].
Proof. reflexivity. Qed.

Lemma sd_set_same_class k k2 item d d' :
  differ_at_first k d d' -> scalar_eqb k2 k = true ->
  sd_set k2 item d = sd_set k2 item d'.
Proof.
  intros H E. induction H as [key m m' rest Hk|key m rest rest' Hk H IH];
    cbn [sd_set]; rewrite (scalar_eqb_trans _ _ key E), Hk.
  - reflexivity.
  - rewrite IH. reflexivity.
Qed.

Lemma sd_set_other_class k k2 item d d' :
  differ_at_first k d d' -> scalar_eqb k2 k = false ->
  differ_at_first k (sd_set k2 item d) (sd_set k2 item d').
Proof.
  intros H E. induction H as [key m m' rest Hk|key m rest rest' Hk H IH];
    cbn [sd_set].
  - assert (E2 : scalar_eqb k2 key = false).
    { rewrite scalar_eqb_sym, <- (scalar_eqb_trans _ _ k2 Hk), scalar_eqb_sym.
      exact E. }
    rewrite E2. apply differ_here, Hk.
  - destruct (scalar_eqb k2 key); apply differ_later; assumption.
Qed.

Lemma sd_set_start k m m' acc :
  differ_at_first k (sd_set k m acc) (sd_set k m' acc).
Proof.
  induction acc as [|[key x] acc IH]; cbn [sd_set].
  - apply differ_here, scalar_eqb_refl.
  - destruct (scalar_eqb k key) eqn:E.
    + apply differ_here, E.
    + apply differ_later; assumption.
Qed.

Lemma build_after_duplicate uk k l : forall d d',
  differ_at_first k d d' ->
  Exists (fun y => exists k' my, item_key uk y = Ret (k', my) /\
                                 scalar_eqb k' k = true) l ->
  for_each (state_dict_step uk) l d = for_each (state_dict_step uk) l d'.
Proof.
  induction l as [|item l IH]; intros d d' Hd Hex; [inversion Hex|].
  cbn [for_each]. unfold state_dict_step at 1 3.
  destruct (item_key uk item) as [[k2 m2]| |] eqn:Ei; cbn [bind fst snd];
    try reflexivity.
  destruct (scalar_eqb k2 k) eqn:E.
  - rewrite (sd_set_same_class k2 m2 Hd E). reflexivity.
  - apply IH; [apply sd_set_other_class; assumption|].
    inversion Hex as [? ? (k' & my & Hk' & Ek')|]; subst; [|assumption].
    congruence.
Qed.

Lemma build_replace_duplicate uk k mx mx' l1 l2 :
  item_key uk (VDict mx) = Ret (k, mx) ->
  item_key uk (VDict mx') = Ret (k, mx') ->
  Exists (fun y => exists k' my, item_key uk y = Ret (k', my) /\
                                 scalar_eqb k' k = true) l2 ->
  build_state_dict uk (l1 ++ VDict mx :: l2) =
  build_state_dict uk (l1 ++ VDict mx' :: l2).
Proof.
  intros Hx Hx' Hex. rewrite !build_state_dict_step, !for_each_app.
  destruct (for_each (state_dict_step uk) l1 []) as [acc| |]; cbn [bind];
    try reflexivity.
  cbn [for_each]. unfold state_dict_step at 1 3. rewrite Hx, Hx'.
  cbn [bind fst snd].
  apply build_after_duplicate with (k := k); [apply sd_set_start|assumption].
Qed.

Lemma build_last_item uk key l : forall acc d,
  for_each (state_dict_step uk) l acc = Ret d ->
  sd_get key d = match last_item uk key l with
                 | Some m => Some m
                 | None => sd_get key acc
                 end.
Proof.
  induction l as [|item l IH]; intros acc d; cbn [for_each last_item].
  - intros [= <-]. reflexivity.
  - intros H. apply bind_Ret_inv in H as (acc' & Ha & H).
    unfold state_dict_step in Ha.
    apply bind_Ret_inv in Ha as ([k m] & Hi & [= <-]).
    rewrite (IH _ _ H), Hi. cbn [fst snd].
    destruct (last_item uk key l); [reflexivity|].
    rewrite sd_get_set. destruct (scalar_eqb key k); reflexivity.
Qed.

Lemma compare_state_lists_nonempty first rest dfirst drest p :
  compare_state_lists (first :: rest) (dfirst :: drest) p =
  unique_key <- select_unique_key first ;;
  current_state_dict <- build_state_dict unique_key (first :: rest) ;;
  desired_state_dict <- build_state_dict unique_key (dfirst :: drest) ;;
  for_each (changed_item_step compare_state_dicts p desired_state_dict)
    current_state_dict
    (fold_left (added_item_step p current_state_dict) desired_state_dict
       (fold_left (removed_item_step p desired_state_dict)
          current_state_dict empty_diff)).
Proof. reflexivity. Qed.

(** C10.  The dictionary that the Sequence Differ builds maps every identity
    value to the last element of the sequence that carries it.  An earlier
    element [mx] whose identity value is carried again by a later element of
    the same sequence does not take part in the comparison: replacing it by
    any mapping [mx'] with the same identity value leaves the dictionary and
    the whole result of the Sequence Differ unchanged, in the current
    sequence as well as in the desired one, so the earlier duplicate has no
    change record of its own. *)
Theorem earlier_duplicate_discarded (uk : string) (l1 l2 : list value)
  (mx mx' : mapping) (k : scalar) :
  item_key uk (VDict mx) = Ret (k, mx) ->
  item_key uk (VDict mx') = Ret (k, mx') ->
  Exists (fun y => exists k' my, item_key uk y = Ret (k', my) /\
                                 scalar_eqb k' k = true) l2 ->
  (forall l d key, build_state_dict uk l = Ret d ->
                   sd_get key d = last_item uk key l)
  /\ build_state_dict uk (l1 ++ VDict mx :: l2) =
     build_state_dict uk (l1 ++ VDict mx' :: l2)
  /\ (forall other P,
         select_unique_key (hd (VDict mx) l1) = Ret uk ->
         select_unique_key (hd (VDict mx') l1) = Ret uk ->
         compare_state_lists (l1 ++ VDict mx :: l2) other P =
         compare_state_lists (l1 ++ VDict mx' :: l2) other P)
  /\ (forall first rest P,
         select_unique_key first = Ret uk ->
         compare_state_lists (first :: rest) (l1 ++ VDict mx :: l2) P =
         compare_state_lists (first :: rest) (l1 ++ VDict mx' :: l2) P).
Proof.
  intros Hx Hx' Hex.
  assert (Hb : build_state_dict uk (l1 ++ VDict mx :: l2) =
               build_state_dict uk (l1 ++ VDict mx' :: l2))
    by (eapply build_replace_duplicate; eassumption).
  split; [|split; [exact Hb|split]].
  - intros l d key H. erewrite build_last_item by exact H.
    destruct (last_item uk key l); reflexivity.
  - intros other P Hs Hs'.
    destruct other as [|dfirst drest].
    { destruct l1; reflexivity. }
    destruct l1 as [|first rest]; cbn [hd app] in *;
      rewrite !compare_state_lists_nonempty.
    + rewrite Hs, Hs'. cbn [bind]. cbn [app] in Hb. rewrite Hb. reflexivity.
    + rewrite Hs. cbn [bind]. cbn [app] in Hb. rewrite Hb. reflexivity.
  - intros first rest P Hs.
    destruct l1 as [|y l1]; cbn [app] in *;
      rewrite !compare_state_lists_nonempty, Hs; cbn [bind];
      rewrite Hb; reflexivity.
Qed.

Lemma earlier_duplicate_discarded_witness :
  compare_state_lists
    ([] ++ VDict [("name", str "a"); ("v", int 1)]
        :: [VDict [("name", str "a"); ("v", int 2)]])
    [VDict [("name", str "a"); ("v", int 2)]] "P" =
  compare_state_lists
    ([] ++ VDict [("name", str "a"); ("v", int 9)]
        :: [VDict [("name", str "a"); ("v", int 2)]])
    [VDict [("name", str "a"); ("v", int 2)]] "P".
Proof.
  refine (proj1 (proj2 (proj2
    (@earlier_duplicate_discarded "name" []
       [VDict [("name", str "a"); ("v", int 2)]]
       [("name", str "a"); ("v", int 1)] [("name", str "a"); ("v", int 9)]
       (SStr "a") eq_refl eq_refl _))) _ "P" eq_refl eq_refl).
  apply Exists_cons_hd.
  exists (SStr "a"), [("name", str "a"); ("v", int 2)].
  split; reflexivity.
Defined.

(** ** C3: exchanging current and desired *)

Lemma flat_map_nil (A B : Type) (f : A -> list B) l :
  (forall x, In x l -> f x = []) -> flat_map f l = [].
Proof.
  induction l as [|x l IH]; intros H; cbn [flat_map]; [reflexivity|].
  rewrite (H x (or_introl eq_refl)), IH; [reflexivity|].
  intros; apply H; right; assumption.
Qed.

Lemma unique_keys_remove (V : Type) k (w : V) d1 d2 :
  unique_keys (d1 ++ (k, w) :: d2) = true ->
  unique_keys (d1 ++ d2) = true /\ lookup k (d1 ++ d2) = None.
Proof.
  induction d1 as [|[k' v] d1 IH]; cbn [app unique_keys]; intros H;
    apply andb_prop in H as [Hk Hu].
  - split; [exact Hu|]. unfold in_dict in Hk.
    destruct (lookup k d2); [discriminate|reflexivity].
  - destruct (IH Hu) as [Hu' Hl]. unfold in_dict in *.
    destruct (String.eqb k' k) eqn:E.
    + apply String.eqb_eq in E. subst k'.
      rewrite lookup_app in Hk. cbn [lookup] in Hk.
      rewrite String.eqb_refl in Hk.
      destruct (lookup k d1); discriminate.
    + assert (Hkk : k' <> k) by (apply String.eqb_neq; exact E).
      rewrite (lookup_insert_other w d1 d2 Hkk) in Hk.
      rewrite Hk, Hu'. split; [reflexivity|].
      cbn [lookup]. rewrite String.eqb_sym, E. exact Hl.
Qed.

(** Walking two dictionaries in their own orders reaches the same common
    keys. *)
Lemma assoc_perm (X : Type) (F G H : string * value -> list X) :
  forall A B : mapping,
    unique_keys A = true -> unique_keys B = true ->
    (forall k v, In (k, v) A -> lookup k B = None -> F (k, v) = H (k, v)) ->
    (forall k v w, In (k, v) A -> In (k, w) B ->
                   H (k, v) = [] /\ Permutation (F (k, v)) (G (k, w))) ->
    (forall k w, In (k, w) B -> lookup k A = None -> G (k, w) = []) ->
    Permutation (flat_map F A) (flat_map G B ++ flat_map H A).
Proof.
  induction A as [|[k v] A IH]; intros B HA HB H1 H2 H3.
  - cbn [flat_map]. rewrite flat_map_nil, app_nil_r; [constructor|].
    intros [k w] Hin. apply H3; [assumption|reflexivity].
  - cbn [unique_keys] in HA. apply andb_prop in HA as [HkA HA].
    apply negb_true_iff in HkA.
    cbn [flat_map].
    destruct (lookup k B) as [w|] eqn:El.
    + apply lookup_In in El.
      destruct (in_split _ _ El) as (B1 & B2 & ->).
      destruct (unique_keys_remove _ _ _ _ HB) as [HB' HkB].
      destruct (H2 k v w (or_introl eq_refl) El) as [Hnil Hperm].
      rewrite Hnil, Hperm, flat_map_app. cbn [flat_map app].
      rewrite (IH (B1 ++ B2)%list); try assumption.
      * rewrite flat_map_app, <- !app_assoc.
        apply Permutation_app_swap_app.
      * intros k' v' Hin Hl. apply H1; [right; assumption|].
        rewrite lookup_insert_other; [assumption|].
        intros ->. rewrite (in_dict_In _ _ _ Hin) in HkA. discriminate.
      * intros k' v' w' Hin Hin'. apply H2; [right; assumption|].
        apply in_app_or in Hin' as [Hi|Hi]; apply in_or_app;
          [left|right; right]; assumption.
      * intros k' w' Hin Hl. apply H3.
        { apply in_app_or in Hin as [Hi|Hi]; apply in_or_app;
            [left|right; right]; assumption. }
        cbn [lookup]. destruct (String.eqb k' k) eqn:E; [|assumption].
        apply String.eqb_eq in E. subst k'.
        apply in_dict_In in Hin. unfold in_dict in Hin.
        rewrite HkB in Hin. discriminate.
    + rewrite (H1 k v (or_introl eq_refl) El).
      rewrite (IH B); try assumption.
      * apply Permutation_app_swap_app.
      * intros k' v' Hin Hl. apply H1; [right; assumption|assumption].
      * intros k' v' w' Hin Hin'. apply H2; [right; assumption|assumption].
      * intros k' w' Hin Hl. apply H3; [assumption|].
        cbn [lookup]. destruct (String.eqb k' k) eqn:E; [|assumption].
        apply String.eqb_eq in E. subst k'.
        apply in_dict_In in Hin. unfold in_dict in Hin.
        rewrite El in Hin. discriminate.
Qed.

Lemma for_each_flat (A : Type) (step : diff -> A -> result diff)
  (c : A -> diff) l :
  additive step ->
  (forall x, In x l -> step empty_diff x = Ret (c x)) ->
  for_each step l empty_diff =
  Ret (mk_diff (flat_map (fun x => removed (c x)) l)
               (flat_map (fun x => added (c x)) l)
               (flat_map (fun x => changed (c x)) l)).
Proof.
  intros Hadd. induction l as [|x l IH]; intros H; [reflexivity|].
  cbn [for_each]. rewrite (H x (or_introl eq_refl)). cbn [bind].
  rewrite for_each_additive by assumption.
  rewrite IH by (intros; apply H; right; assumption).
  reflexivity.
Qed.

Lemma ret_or_empty_Ret step r : step = Ret r -> step = Ret (ret_or_empty step).
Proof. intros ->. reflexivity. Qed.

Lemma map_flat_map (A B C : Type) (g : B -> C) (f : A -> list B) l :
  map g (flat_map f l) = flat_map (fun x => map g (f x)) l.
Proof.
  induction l as [|x l IH]; cbn [flat_map map]; [reflexivity|].
  rewrite map_app, IH. reflexivity.
Qed.

Lemma flat_map_flat_map (A B C : Type) (g : B -> list C) (f : A -> list B) l :
  flat_map g (flat_map f l) = flat_map (fun x => flat_map g (f x)) l.
Proof.
  induction l as [|x l IH]; cbn [flat_map]; [reflexivity|].
  rewrite flat_map_app, IH. reflexivity.
Qed.

Lemma seq_free_dict m :
  seq_free (VDict m) =
  forallb (fun kv : string * value => seq_free (snd kv)) m.
Proof.
  cbn [seq_free].
  induction m as [|[k v] m IH]; [reflexivity|].
  cbn [forallb snd]. rewrite IH. reflexivity.
Qed.

Lemma seq_free_In m k v :
  seq_free (VDict m) = true -> In (k, v) m -> seq_free v = true.
Proof.
  rewrite seq_free_dict, forallb_forall. intros H Hin. exact (H _ Hin).
Qed.

Lemma absent_current_step f B P k cv :
  lookup k B = None ->
  current_key_step f B P empty_diff (k, cv) =
  Ret (mk_diff [removed_record (key_path P k) cv] [] []).
Proof. intros H. unfold current_key_step. rewrite H. reflexivity. Qed.

Lemma absent_desired_step B P k cv :
  lookup k B = None ->
  desired_key_step compare_state_dicts B P empty_diff (k, cv) =
  Ret (mk_diff [] (leaf_records (key_path P k) cv) []).
Proof.
  intros H. unfold desired_key_step, in_dict. rewrite H. cbn [negb].
  destruct cv as [s|m|l]; try reflexivity.
  rewrite compare_empty_current. reflexivity.
Qed.

Lemma present_desired_step f A P k cv dv :
  lookup k A = Some cv ->
  desired_key_step f A P empty_diff (k, dv) = Ret empty_diff.
Proof. intros H. unfold desired_key_step, in_dict. rewrite H. reflexivity. Qed.

Lemma common_step A B P k cv dv :
  lookup k B = Some dv -> lookup k A = Some cv ->
  seq_free cv = true -> seq_free dv = true ->
  (forall cm dm, cv = VDict cm -> dv = VDict dm ->
     exists rab rba,
       compare_state_dicts cm dm (key_path P k) = Ret rab /\
       compare_state_dicts dm cm (key_path P k) = Ret rba /\
       mirrored rab rba) ->
  exists rc rd,
    current_key_step compare_state_dicts B P empty_diff (k, cv) = Ret rc /\
    current_key_step compare_state_dicts A P empty_diff (k, dv) = Ret rd /\
    mirrored rc rd.
Proof.
  intros HB HA Fc Fd Hsub. unfold current_key_step. rewrite HA, HB.
  destruct cv as [a|cm|cl], dv as [b|dm|dl]; try discriminate.
  - cbn [value_eqb]. rewrite (scalar_eqb_sym b a).
    destruct (scalar_eqb a b); cbn [negb];
      eexists; eexists; (split; [reflexivity|split; [reflexivity|]]);
      split; cbn; constructor; constructor.
  - cbn [value_eqb negb].
    eexists; eexists; (split; [reflexivity|split; [reflexivity|]]);
      split; cbn; constructor; constructor.
  - cbn [value_eqb negb].
    eexists; eexists; (split; [reflexivity|split; [reflexivity|]]);
      split; cbn; constructor; constructor.
  - destruct (Hsub cm dm eq_refl eq_refl) as (rab & rba & -> & -> & Hm).
    cbn [bind]. rewrite !extend_empty_l. eauto.
Qed.

Lemma mirrored_diff n : forall A B P,
  depth_m A + depth_m B < n ->
  wf_mapping A = true -> wf_mapping B = true ->
  seq_free (VDict A) = true -> seq_free (VDict B) = true ->
  exists rab rba,
    compare_state_dicts A B P = Ret rab /\
    compare_state_dicts B A P = Ret rba /\
    mirrored rab rba.
Proof.
  induction n as [|n IH]; intros A B P Hn WA WB FA FB; [lia|].
  pose proof (wf_unique _ WA) as UA. pose proof (wf_unique _ WB) as UB.
  assert (Hcommon : forall k cv dv,
    lookup k A = Some cv -> lookup k B = Some dv ->
    exists rc rd,
      current_key_step compare_state_dicts B P empty_diff (k, cv) = Ret rc /\
      current_key_step compare_state_dicts A P empty_diff (k, dv) = Ret rd /\
      mirrored rc rd).
  { intros k cv dv HA HB. apply common_step; auto.
    - eapply seq_free_In; [exact FA|]. apply lookup_In, HA.
    - eapply seq_free_In; [exact FB|]. apply lookup_In, HB.
    - intros cm dm -> ->. apply IH.
      + pose proof (depth_in_dict _ _ _ (lookup_In _ _ HA)).
        pose proof (depth_in_dict _ _ _ (lookup_In _ _ HB)).
        unfold depth_m in *. lia.
      + exact (wf_lookup _ _ WA HA).
      + exact (wf_lookup _ _ WB HB).
      + eapply seq_free_In; [exact FA|]. apply lookup_In, HA.
      + eapply seq_free_In; [exact FB|]. apply lookup_In, HB. }
  set (cA := fun x => ret_or_empty
                        (current_key_step compare_state_dicts B P empty_diff x)).
  set (cB := fun x => ret_or_empty
                        (current_key_step compare_state_dicts A P empty_diff x)).
  set (nA := fun x => ret_or_empty
                        (desired_key_step compare_state_dicts B P empty_diff x)).
  set (nB := fun x => ret_or_empty
                        (desired_key_step compare_state_dicts A P empty_diff x)).
  assert (EA1 : for_each (current_key_step compare_state_dicts B P) A empty_diff =
                Ret (mk_diff (flat_map (fun x => removed (cA x)) A)
                             (flat_map (fun x => added (cA x)) A)
                             (flat_map (fun x => changed (cA x)) A))).
  { apply for_each_flat; [apply current_key_step_additive|].
    intros [k cv] Hin. pose proof (lookup_unique _ _ _ UA Hin) as HA.
    destruct (lookup k B) as [dv|] eqn:HB.
    - destruct (Hcommon _ _ _ HA HB) as (rc & rd & E & _).
      eapply ret_or_empty_Ret, E.
    - eapply ret_or_empty_Ret, absent_current_step, HB. }
  assert (EB1 : for_each (current_key_step compare_state_dicts A P) B empty_diff =
                Ret (mk_diff (flat_map (fun x => removed (cB x)) B)
                             (flat_map (fun x => added (cB x)) B)
                             (flat_map (fun x => changed (cB x)) B))).
  { apply for_each_flat; [apply current_key_step_additive|].
    intros [k dv] Hin. pose proof (lookup_unique _ _ _ UB Hin) as HB.
    destruct (lookup k A) as [cv|] eqn:HA.
    - destruct (Hcommon _ _ _ HA HB) as (rc & rd & _ & E & _).
      eapply ret_or_empty_Ret, E.
    - eapply ret_or_empty_Ret, absent_current_step, HA. }
  assert (EA2 : for_each (desired_key_step compare_state_dicts B P) A empty_diff =
                Ret (mk_diff (flat_map (fun x => removed (nA x)) A)
                             (flat_map (fun x => added (nA x)) A)
                             (flat_map (fun x => changed (nA x)) A))).
  { apply for_each_flat; [apply desired_key_step_additive|].
    intros [k cv] Hin.
    destruct (lookup k B) as [dv|] eqn:HB.
    - eapply ret_or_empty_Ret, present_desired_step, HB.
    - eapply ret_or_empty_Ret, absent_desired_step, HB. }
  assert (EB2 : for_each (desired_key_step compare_state_dicts A P) B empty_diff =
                Ret (mk_diff (flat_map (fun x => removed (nB x)) B)
                             (flat_map (fun x => added (nB x)) B)
                             (flat_map (fun x => changed (nB x)) B))).
  { apply for_each_flat; [apply desired_key_step_additive|].
    intros [k dv] Hin.
    destruct (lookup k A) as [cv|] eqn:HA.
    - eapply ret_or_empty_Ret, present_desired_step, HA.
    - eapply ret_or_empty_Ret, absent_desired_step, HA. }
  rewrite !compare_state_dicts_loops, EA1, EB1, EA2, EB2. cbn [bind].
  destruct (desired_loop_only_added _ _ _ _ EA2) as [RA2 CA2].
  destruct (desired_loop_only_added _ _ _ _ EB2) as [RB2 CB2].
  cbn [removed changed] in RA2, CA2, RB2, CB2.
  eexists; eexists. split; [reflexivity|]. split; [reflexivity|].
  unfold mirrored. cbn [extend removed added changed].
  rewrite CA2, CB2, RB2, !app_nil_r. split.
  - rewrite map_flat_map.
    rewrite (assoc_perm (fun x => changed (cB x))
               (fun x => map swap_values (changed (cA x)))
               (fun _ => []) B A UB UA).
    + rewrite (flat_map_nil (fun _ : string * value => @nil change_record));
        [rewrite app_nil_r; reflexivity|reflexivity].
    + intros k dv Hin HA. unfold cB.
      erewrite absent_current_step by exact HA. reflexivity.
    + intros k dv cv HinB HinA. split; [reflexivity|].
      destruct (Hcommon k cv dv) as (rc & rd & E1 & E2 & Hm & _);
        try (apply lookup_unique; assumption).
      unfold cA, cB. rewrite E1, E2. exact Hm.
    + intros k cv Hin HB. unfold cA.
      erewrite absent_current_step by exact HB. reflexivity.
  - rewrite flat_map_flat_map. symmetry.
    apply (assoc_perm (fun x => flat_map as_added_leaves (removed (cA x)))
             (fun x => added (cB x)) (fun x => added (nA x)) A B UA UB).
    + intros k cv Hin HB. unfold cA, nA.
      erewrite absent_current_step by exact HB.
      erewrite absent_desired_step by exact HB.
      cbn. apply app_nil_r.
    + intros k cv dv HinA HinB.
      pose proof (lookup_unique _ _ _ UA HinA) as HA.
      pose proof (lookup_unique _ _ _ UB HinB) as HB.
      split.
      * unfold nA. erewrite present_desired_step by exact HB. reflexivity.
      * destruct (Hcommon k cv dv HA HB) as (rc & rd & E1 & E2 & _ & Hm).
        unfold cA, cB. rewrite E1, E2. symmetry. exact Hm.
    + intros k dv Hin HA. unfold cB.
      erewrite absent_current_step by exact HA. reflexivity.
Qed.

(** C3, as the code has it.  For well-formed trees without sequences both
    directions of the comparison return.  Exchanging current and desired
    exchanges old and new value in every Changed record, so the Changed
    records keep their paths; a key that is absent on one side is a Removed
    record holding the whole value in one direction and, in the other
    direction, the Added records of the leaves of that value (one record at
    the same path when the value is a scalar, records at deeper paths when it
    is a mapping).  The records of the two directions correspond up to their
    order. *)
Theorem diff_exchange_without_sequences (A B : mapping) (P : string) :
  wf_mapping A = true -> wf_mapping B = true ->
  seq_free (VDict A) = true -> seq_free (VDict B) = true ->
  exists rab rba,
    compare_state_dicts A B P = Ret rab /\
    compare_state_dicts B A P = Ret rba /\
    Permutation (changed rba) (map swap_values (changed rab)) /\
    Permutation (added rba) (flat_map as_added_leaves (removed rab)) /\
    Permutation (added rab) (flat_map as_added_leaves (removed rba)).
Proof.
  intros WA WB FA FB.
  destruct (@mirrored_diff (S (depth_m A + depth_m B)) A B P)
    as (rab & rba & E1 & E2 & H1 & H2); auto.
  destruct (@mirrored_diff (S (depth_m B + depth_m A)) B A P)
    as (rba' & rab' & E2' & E1' & _ & H3); auto.
  rewrite E1 in E1'. rewrite E2 in E2'.
  injection E1' as <-. injection E2' as <-.
  exists rab, rba. auto.
Qed.

Lemma diff_exchange_without_sequences_witness :
  exists rab rba,
    compare_state_dicts deployment deployment_spec "" = Ret rab /\
    compare_state_dicts deployment_spec deployment "" = Ret rba /\
    Permutation (changed rba) (map swap_values (changed rab)) /\
    Permutation (added rba) (flat_map as_added_leaves (removed rab)) /\
    Permutation (added rab) (flat_map as_added_leaves (removed rba)).
Proof.
  apply (diff_exchange_without_sequences deployment deployment_spec "");
    reflexivity.
Defined.

(** C3 as stated fails: a mapping that only the second tree holds is added
    leaf by leaf in one direction and removed as a whole in the other, so the
    two directions report different paths. *)
Lemma diff_exchange_paths_counterexample :
  compare_state_dicts [] [("spec", VDict [("replicas", int 3)])] "" =
    Ret (mk_diff [] [added_record "spec.replicas" (int 3)] []) /\
  compare_state_dicts [("spec", VDict [("replicas", int 3)])] [] "" =
    Ret (mk_diff [removed_record "spec" (VDict [("replicas", int 3)])] [] []) /\
  map path [added_record "spec.replicas" (int 3)] <>
  map path [removed_record "spec" (VDict [("replicas", int 3)])].
Proof. repeat split. discriminate. Qed.

(** * The differ and the objects it is given *)

Module StoreFacts.
Import Store.

Lemma preserved_refl h : preserved h h.
Proof. split; auto. Qed.

Lemma preserved_alloc h0 h o : preserved h0 h -> preserved h0 (h ++ [o]).
Proof.
  intros [Hl Hn]. split.
  - rewrite length_app. lia.
  - intros l Hlt. rewrite nth_error_app1 by lia. auto.
Qed.

Lemma length_update l o h : List.length (update l o h) = List.length h.
Proof.
  revert l. induction h as [|x h IH]; intros [|l]; cbn; auto.
Qed.

Lemma nth_error_update_other l o h l' :
  l' <> l -> nth_error (update l o h) l' = nth_error h l'.
Proof.
  revert l l'. induction h as [|x h IH]; intros [|l] [|l'] Hne; cbn; auto;
    try contradiction.
Qed.

Lemma preserved_update h0 h l o :
  preserved h0 h -> List.length h0 <= l -> preserved h0 (update l o h).
Proof.
  intros [Hl Hn] Hfresh. split.
  - rewrite length_update. exact Hl.
  - intros l' Hlt. rewrite nth_error_update_other by lia. auto.
Qed.

Lemma keeps_ret (A : Type) h0 (a : A) (Q : A -> Prop) :
  Q a -> keeps h0 (ret a) Q.
Proof. intros HQ h Hp. cbn. auto. Qed.

Lemma keeps_raise (A : Type) h0 e (Q : A -> Prop) : keeps h0 (raise e) Q.
Proof. intros h Hp. exact Hp. Qed.

Lemma keeps_out_of_fuel (A : Type) h0 (Q : A -> Prop) : keeps h0 out_of_fuel Q.
Proof. intros h Hp. exact I. Qed.

Lemma keeps_bind (A B : Type) h0 (m : M A) (f : A -> M B) Q R :
  keeps h0 m Q -> (forall a, Q a -> keeps h0 (f a) R) ->
  keeps h0 (bind m f) R.
Proof.
  intros Hm Hf h Hp. unfold bind. specialize (Hm h Hp).
  destruct (m h) as [a h'| |]; auto.
  destruct Hm as [Hp' HQ]. exact (Hf a HQ h' Hp').
Qed.

Lemma keeps_weaken (A : Type) h0 (m : M A) (Q R : A -> Prop) :
  keeps h0 m Q -> (forall a, Q a -> R a) -> keeps h0 m R.
Proof.
  intros Hm HQR h Hp. specialize (Hm h Hp).
  destruct (m h); auto. destruct Hm; auto.
Qed.

Lemma keeps_alloc h0 o : keeps h0 (alloc o) (fun l => List.length h0 <= l).
Proof.
  intros h Hp. cbn. split; [apply preserved_alloc, Hp|]. destruct Hp. lia.
Qed.

Lemma keeps_load h0 l : keeps h0 (load l) (fun _ => True).
Proof. intros h Hp. unfold load. destruct (nth_error h l); auto. Qed.

Lemma keeps_store h0 l o :
  List.length h0 <= l -> keeps h0 (store l o) (fun _ => True).
Proof. intros Hf h Hp. cbn. split; [|exact I]. apply preserved_update; auto. Qed.

(** Steps through a computation of the store monad. *)
Ltac keeps_step :=
  match goal with
  | |- keeps _ (bind _ _) _ => eapply keeps_bind; [|intros ? ?]
  | |- keeps _ (ret _) _ => apply keeps_ret; auto
  | |- keeps _ (raise _) _ => apply keeps_raise
  | |- keeps _ (load _) _ => apply keeps_load
  | |- keeps _ (store _ _) _ => apply keeps_store; auto
  | |- keeps _ (alloc _) _ => apply keeps_alloc
  | |- keeps _ (match ?x with _ => _ end) _ => destruct x
  | |- keeps _ (let (_, _) := ?x in _) _ => destruct x
  end.

Lemma keeps_list_append h0 l x :
  List.length h0 <= l -> keeps h0 (list_append l x) (fun _ => True).
Proof. intros Hf. unfold list_append. repeat keeps_step. Qed.

Lemma keeps_list_extend h0 l src :
  List.length h0 <= l -> keeps h0 (list_extend l src) (fun _ => True).
Proof. intros Hf. unfold list_extend. repeat keeps_step. Qed.

Lemma keeps_as_loc h0 r : keeps h0 (as_loc r) (fun _ => True).
Proof. unfold as_loc. repeat keeps_step. Qed.

Lemma keeps_is_dict h0 r : keeps h0 (is_dict r) (fun _ => True).
Proof. unfold is_dict. repeat keeps_step. Qed.

Lemma keeps_is_list h0 r : keeps h0 (is_list r) (fun _ => True).
Proof. unfold is_list. repeat keeps_step. Qed.

Lemma keeps_dict_items h0 l : keeps h0 (dict_items l) (fun _ => True).
Proof. unfold dict_items. repeat keeps_step. Qed.

Lemma keeps_list_elems h0 l : keeps h0 (list_elems l) (fun _ => True).
Proof. unfold list_elems. repeat keeps_step. Qed.

Lemma keeps_getitem h0 l key : keeps h0 (getitem l key) (fun _ => True).
Proof.
  unfold getitem. eapply keeps_bind; [apply keeps_dict_items|].
  intros items _. repeat keeps_step.
Qed.

Lemma keeps_py_ne h0 n a b : keeps h0 (py_ne n a b) (fun _ => True).
Proof. intros h Hp. unfold py_ne. destruct (py_eqb n h a b); auto. Qed.

Lemma keeps_contains_name h0 n first :
  keeps h0 (contains_name n first) (fun _ => True).
Proof.
  unfold contains_name. destruct first as [[| | |s]|l]; repeat keeps_step.
  intros h Hp. induction elems as [|x rest IH]; [auto|].
  destruct (py_eqb n h x (str_ref "name")) as [[|]|]; auto.
Qed.

Lemma keeps_first_key h0 first : keeps h0 (first_key first) (fun _ => True).
Proof. unfold first_key. repeat keeps_step. Qed.

Lemma keeps_select_unique_key h0 n first :
  keeps h0 (select_unique_key n first) (fun _ => True).
Proof.
  unfold select_unique_key.
  eapply keeps_bind; [apply keeps_contains_name|]. intros [|] _.
  - apply keeps_ret. exact I.
  - apply keeps_first_key.
Qed.

Lemma keeps_item_key h0 uk item : keeps h0 (item_key uk item) (fun _ => True).
Proof. unfold item_key. repeat keeps_step. Qed.

Lemma keeps_build_state_dict h0 uk items :
  forall acc, keeps h0 (build_state_dict uk items acc) (fun _ => True).
Proof.
  induction items as [|item items IH]; intros acc; cbn [build_state_dict].
  - apply keeps_ret. exact I.
  - eapply keeps_bind; [apply keeps_item_key|]. intros k _. apply IH.
Qed.

Lemma keeps_for_each (A : Type) h0 (body : A -> M unit) l :
  (forall x, keeps h0 (body x) (fun _ => True)) ->
  keeps h0 (for_each body l) (fun _ => True).
Proof.
  intros Hb. induction l as [|x l IH]; cbn [for_each].
  - apply keeps_ret. exact I.
  - eapply keeps_bind; [apply Hb|]. intros _ _. exact IH.
Qed.

Lemma keeps_message_record h0 p msg :
  keeps h0 (message_record p msg) (fun _ => True).
Proof. unfold message_record. repeat keeps_step. Qed.

Lemma keeps_removed_record h0 p v :
  keeps h0 (removed_record p v) (fun _ => True).
Proof. unfold removed_record. repeat keeps_step. Qed.

Lemma keeps_added_record h0 p v : keeps h0 (added_record p v) (fun _ => True).
Proof. unfold added_record. repeat keeps_step. Qed.

Lemma keeps_changed_record h0 p o n :
  keeps h0 (changed_record p o n) (fun _ => True).
Proof. unfold changed_record. repeat keeps_step. Qed.

Lemma keeps_new_diff h0 : keeps h0 new_diff (own_lists h0).
Proof.
  unfold new_diff. repeat keeps_step. unfold own_lists. cbn. auto.
Qed.

Lemma keeps_extend h0 d sub :
  own_lists h0 d -> keeps h0 (extend d sub) (fun _ => True).
Proof.
  intros (Hr & Ha & Hc). unfold extend.
  eapply keeps_bind; [apply keeps_list_extend, Hr|]. intros _ _.
  eapply keeps_bind; [apply keeps_list_extend, Ha|]. intros _ _.
  apply keeps_list_extend, Hc.
Qed.

Create HintDb keeps.

#[local] Hint Resolve keeps_list_append keeps_list_extend keeps_as_loc
  keeps_is_dict keeps_is_list keeps_dict_items keeps_list_elems keeps_getitem
  keeps_py_ne keeps_select_unique_key keeps_item_key keeps_build_state_dict
  keeps_message_record keeps_removed_record keeps_added_record
  keeps_changed_record keeps_new_diff keeps_extend keeps_alloc : keeps.

(** Steps through the body of a differ. *)
Ltac keeps_auto :=
  repeat first
    [ apply keeps_ret; exact I
    | apply keeps_raise
    | apply keeps_for_each; intros
    | solve [eauto with keeps]
    | match goal with
      | H : own_lists _ _ |- keeps _ (list_append _ _) _ =>
          apply keeps_list_append; apply H
      | H : own_lists _ _ |- keeps _ (list_extend _ _) _ =>
          apply keeps_list_extend; apply H
      | |- keeps _ (bind _ _) _ => eapply keeps_bind; [|intros ? ?]
      | |- keeps _ (match ?x with _ => _ end) _ => destruct x
      | |- keeps _ (let (_, _) := ?x in _) _ => destruct x
      end ].

Lemma keeps_compare_state_lists_body h0 n self c d p :
  (forall c' d' q, keeps h0 (self c' d' q) (fun _ => True)) ->
  keeps h0 (compare_state_lists_body n self c d p) (fun _ => True).
Proof.
  intros Hself. unfold compare_state_lists_body.
  eapply keeps_bind; [apply keeps_new_diff|]. intros diff Hown.
  keeps_auto.
Qed.

Lemma keeps_compare_state_dicts_body h0 n self c d p :
  (forall c' d' q, keeps h0 (self c' d' q) (fun _ => True)) ->
  keeps h0 (compare_state_dicts_body n self c d p) (fun _ => True).
Proof.
  intros Hself. unfold compare_state_dicts_body.
  eapply keeps_bind; [apply keeps_new_diff|]. intros diff Hown.
  assert (Hlists : forall c' d' q,
             keeps h0 (compare_state_lists_body n self c' d' q)
                   (fun _ => True))
    by (intros; apply keeps_compare_state_lists_body; exact Hself).
  keeps_auto.
Qed.

Lemma keeps_compare_state_dicts n :
  forall h0 c d p, keeps h0 (compare_state_dicts n c d p) (fun _ => True).
Proof.
  induction n as [|n IH]; intros h0 c d p; cbn [compare_state_dicts].
  - apply keeps_out_of_fuel.
  - apply keeps_compare_state_dicts_body. intros. apply IH.
Qed.

Lemma read_preserved n : forall h h' r v,
  preserved h h' -> read n h r = Some v -> read n h' r = Some v.
Proof.
  induction n as [|n IH]; intros h h' r v Hp; [discriminate|].
  destruct r as [s|l]; cbn [read]; [auto|].
  destruct (nth_error h l) as [o|] eqn:E; [|discriminate].
  assert (Hl : l < List.length h) by (apply nth_error_Some; congruence).
  destruct Hp as [Hlen Hn]. rewrite (Hn l Hl), E.
  destruct o as [items|elems]; clear E Hl.
  - match goal with
    | |- option_map _ ?a = _ -> option_map _ ?b = _ =>
        assert (Hi : forall ws, a = Some ws -> b = Some ws)
    end.
    { induction items as [|[k x] items IHi]; intros ws; [auto|].
      destruct (read n h x) as [w|] eqn:Ex; [|discriminate].
      rewrite (IH h h' x w (conj Hlen Hn) Ex).
      match goal with
      | |- match ?a with _ => _ end = _ -> _ =>
          destruct a as [ws'|] eqn:Ea; [|discriminate]
      end.
      rewrite (IHi ws' eq_refl). auto. }
    match goal with
    | |- option_map _ ?a = _ -> _ => destruct a as [ws|]; [|discriminate]
    end.
    rewrite (Hi ws eq_refl). auto.
  - match goal with
    | |- option_map _ ?a = _ -> option_map _ ?b = _ =>
        assert (Hi : forall ws, a = Some ws -> b = Some ws)
    end.
    { induction elems as [|x elems IHi]; intros ws; [auto|].
      destruct (read n h x) as [w|] eqn:Ex; [|discriminate].
      rewrite (IH h h' x w (conj Hlen Hn) Ex).
      match goal with
      | |- match ?a with _ => _ end = _ -> _ =>
          destruct a as [ws'|] eqn:Ea; [|discriminate]
      end.
      rewrite (IHi ws' eq_refl). auto. }
    match goal with
    | |- option_map _ ?a = _ -> _ => destruct a as [ws|]; [|discriminate]
    end.
    rewrite (Hi ws eq_refl). auto.
Qed.

(** ** C9: the inputs are left as they were *)

(** C9.  When [compare_state_dicts], run on the dictionaries at locations
    [c] and [d] of a store, returns, every object that was in the store
    before the call is still there with the same content, so the documents
    that [c] and [d] stand for, with all their nested mappings and
    sequences, read the same after the call as before; the same holds when
    the call raises. *)
Theorem inputs_unchanged (n c d : nat) (p : string) (h : heap) :
  (forall r h',
      compare_state_dicts n c d p h = Ok r h' ->
      (forall l o, nth_error h l = Some o -> nth_error h' l = Some o) /\
      (forall k vc vd,
          read k h (RObj c) = Some vc -> read k h (RObj d) = Some vd ->
          read k h' (RObj c) = Some vc /\ read k h' (RObj d) = Some vd))
  /\ (forall e h',
         compare_state_dicts n c d p h = Err e h' ->
         (forall l o, nth_error h l = Some o -> nth_error h' l = Some o) /\
         (forall k vc vd,
             read k h (RObj c) = Some vc -> read k h (RObj d) = Some vd ->
             read k h' (RObj c) = Some vc /\ read k h' (RObj d) = Some vd)).
Proof.
  pose proof (@keeps_compare_state_dicts n h c d p h (preserved_refl h)) as H.
  assert (G : forall h', preserved h h' ->
    (forall l o, nth_error h l = Some o -> nth_error h' l = Some o) /\
    (forall k vc vd,
        read k h (RObj c) = Some vc -> read k h (RObj d) = Some vd ->
        read k h' (RObj c) = Some vc /\ read k h' (RObj d) = Some vd)).
  { intros h' Hp. split.
    - intros l o E. destruct Hp as [_ Hn]. rewrite Hn; [exact E|].
      apply nth_error_Some. congruence.
    - intros k vc vd Ec Ed. split; eapply read_preserved; eassumption. }
  split; intros x h' E; rewrite E in H; apply G; [apply H|exact H].
Qed.

Lemma inputs_unchanged_witness :
  exists r h',
    compare_state_dicts 10 3 8 "" sample_store = Ok r h' /\
    read 10 h' (RObj 3) = Some (VDict manifest_nginx) /\
    read 10 h' (RObj 8) =
      Some (VDict [("spec",
                    VDict [("replicas", int 3);
                           ("containers", VList nginx_v2);
                           ("strategy", VDict [("type", str "Recreate")])])]).
Proof.
  eexists. eexists. split; [vm_compute; reflexivity|].
  eapply (proj1 (inputs_unchanged 10 3 8 "" sample_store)).
  - vm_compute. reflexivity.
  - reflexivity.
  - reflexivity.
Defined.

(** On the sample store the differ over the store reports the records that
    the differ over values reports for the two documents it holds. *)
Lemma sample_store_diff :
  match compare_state_dicts 10 3 8 "" sample_store with
  | Ok d h' =>
      read 10 h' (RObj (removed_at d)) =
        Some (VList [VDict [("path", str "kind");
                            ("old_value", str "Deployment")]]) /\
      read 10 h' (RObj (added_at d)) =
        Some (VList [VDict [("path", str "spec.strategy.type");
                            ("new_value", str "Recreate")]]) /\
      read 10 h' (RObj (changed_at d)) =
        Some (VList [VDict [("path", str "spec.replicas");
                            ("old_value", int 1); ("new_value", int 3)];
                     VDict [("path", str "spec.containers[nginx].image");
                            ("old_value", str "v1"); ("new_value", str "v2")]])
  | _ => False
  end.
Proof. vm_compute. repeat split. Qed.

End StoreFacts.

(** * Further properties of the differ *)

(** ** An induction principle for the records of a diff *)

Lemma for_each_invariant (A B : Type) (Inv : B -> Prop)
  (step : B -> A -> result B) l :
  (forall acc x r, In x l -> Inv acc -> step acc x = Ret r -> Inv r) ->
  forall acc r, Inv acc -> for_each step l acc = Ret r -> Inv r.
Proof.
  induction l as [|x l IH]; intros H acc r Hacc; cbn [for_each].
  - intros [= <-]. exact Hacc.
  - intros E. apply bind_Ret_inv in E as (acc' & E1 & E2).
    apply IH with (acc := acc'); auto.
    + intros; eapply H; eauto. right; assumption.
    + eapply H; eauto. left; reflexivity.
Qed.

Lemma fold_left_invariant (A B : Type) (Inv : B -> Prop)
  (step : B -> A -> B) l :
  (forall acc x, In x l -> Inv acc -> Inv (step acc x)) ->
  forall acc, Inv acc -> Inv (fold_left step l acc).
Proof.
  induction l as [|x l IH]; intros H acc Hacc; cbn [fold_left]; [exact Hacc|].
  apply IH.
  - intros; apply H; auto. right; assumption.
  - apply H; auto. left; reflexivity.
Qed.

Section RecordInduction.

Variables Pr Pa Pc : string -> change_record -> Prop.

Hypothesis Pr_key : forall p k x, Pr (key_path p k) x -> Pr p x.
Hypothesis Pa_key : forall p k x, Pa (key_path p k) x -> Pa p x.
Hypothesis Pc_key : forall p k x, Pc (key_path p k) x -> Pc p x.
Hypothesis Pr_elem : forall p s x, Pr (elem_path p s) x -> Pr p x.
Hypothesis Pa_elem : forall p s x, Pa (elem_path p s) x -> Pa p x.
Hypothesis Pc_elem : forall p s x, Pc (elem_path p s) x -> Pc p x.

Hypothesis removed_key :
  forall p k v, Pr p (removed_record (key_path p k) v).
Hypothesis removed_item :
  forall p s m, Pr p (removed_record (elem_path p s) (VDict m)).
Hypothesis removed_sentinel :
  forall p, Pr p (message_record p "Current state list is empty").
Hypothesis added_key :
  forall p k v, (forall m, v <> VDict m) ->
                Pa p (added_record (key_path p k) v).
Hypothesis added_item :
  forall p s m, Pa p (added_record (elem_path p s) (VDict m)).
Hypothesis added_sentinel :
  forall p, Pa p (message_record p "Desired state list is empty").
Hypothesis changed_key :
  forall p k cv dv,
    value_eqb cv dv = false ->
    (forall cm dm, cv = VDict cm -> dv = VDict dm -> False) ->
    (forall cl dl, cv = VList cl -> dv = VList dl -> False) ->
    Pc p (changed_record (key_path p k) cv dv).

Let good := all_records Pr Pa Pc.

Lemma good_empty p : good p empty_diff.
Proof. repeat split; constructor. Qed.

Lemma good_extend p a b : good p a -> good p b -> good p (extend a b).
Proof.
  intros (A1 & A2 & A3) (B1 & B2 & B3).
  repeat split; cbn; apply Forall_app; auto.
Qed.

Lemma good_key p k r : good (key_path p k) r -> good p r.
Proof.
  intros (A1 & A2 & A3). repeat split.
  - refine (Forall_impl _ _ A1). intros x Hx. eapply Pr_key, Hx.
  - refine (Forall_impl _ _ A2). intros x Hx. eapply Pa_key, Hx.
  - refine (Forall_impl _ _ A3). intros x Hx. eapply Pc_key, Hx.
Qed.

Lemma good_elem p s r : good (elem_path p s) r -> good p r.
Proof.
  intros (A1 & A2 & A3). repeat split.
  - refine (Forall_impl _ _ A1). intros x Hx. eapply Pr_elem, Hx.
  - refine (Forall_impl _ _ A2). intros x Hx. eapply Pa_elem, Hx.
  - refine (Forall_impl _ _ A3). intros x Hx. eapply Pc_elem, Hx.
Qed.

Lemma good_append_removed p d x :
  good p d -> Pr p x -> good p (append_removed d x).
Proof.
  intros (A1 & A2 & A3) Hx. repeat split; cbn; auto.
  apply Forall_app; auto.
Qed.

Lemma good_append_added p d x :
  good p d -> Pa p x -> good p (append_added d x).
Proof.
  intros (A1 & A2 & A3) Hx. repeat split; cbn; auto.
  apply Forall_app; auto.
Qed.

Lemma good_append_changed p d x :
  good p d -> Pc p x -> good p (append_changed d x).
Proof.
  intros (A1 & A2 & A3) Hx. repeat split; cbn; auto.
  apply Forall_app; auto.
Qed.

Lemma good_extend_added p d sub :
  good p d -> good p sub -> good p (extend_added d sub).
Proof.
  intros (A1 & A2 & A3) (B1 & B2 & B3). repeat split; cbn; auto.
  apply Forall_app; auto.
Qed.

Lemma compare_state_lists_body_good f :
  (forall c d p r, f c d p = Ret r -> good p r) ->
  forall cl dl p r, compare_state_lists_body f cl dl p = Ret r -> good p r.
Proof.
  intros Hf cl dl p r. unfold compare_state_lists_body.
  destruct cl as [|first cl'].
  { intros [= <-]. apply good_append_removed; [apply good_empty|auto]. }
  destruct dl as [|dfirst dl'].
  { intros [= <-]. apply good_append_added; [apply good_empty|auto]. }
  intros E. apply bind_Ret_inv in E as (uk & _ & E).
  apply bind_Ret_inv in E as (cd & _ & E).
  apply bind_Ret_inv in E as (dd & _ & E).
  revert E. apply for_each_invariant.
  - intros acc [key item] r' _ Hacc. unfold changed_item_step.
    destruct (sd_get key dd) as [ditem|]; [|intros [= <-]; exact Hacc].
    destruct (negb (dict_eqb item ditem)); [|intros [= <-]; exact Hacc].
    intros E. apply bind_Ret_inv in E as (sub & Es & [= <-]).
    apply good_extend; [exact Hacc|]. eapply good_elem, Hf, Es.
  - apply fold_left_invariant.
    + intros acc [key item] _ Hacc. unfold added_item_step.
      destruct (negb (sd_mem key cd)); [|exact Hacc].
      apply good_append_added; auto.
    + apply fold_left_invariant; [|apply good_empty].
      intros acc [key item] _ Hacc. unfold removed_item_step.
      destruct (negb (sd_mem key dd)); [|exact Hacc].
      apply good_append_removed; auto.
Qed.

Lemma compare_state_dicts_body_good f :
  (forall c d p r, f c d p = Ret r -> good p r) ->
  forall c d p r, compare_state_dicts_body f c d p = Ret r -> good p r.
Proof.
  intros Hf c d p r. unfold compare_state_dicts_body. intros E.
  apply bind_Ret_inv in E as (d1 & E1 & E2).
  revert E2. apply for_each_invariant.
  - intros acc [key dv] r' _ Hacc. unfold desired_key_step.
    destruct (negb (in_dict key c)); [|intros [= <-]; exact Hacc].
    destruct dv as [s|dm|l].
    + intros [= <-]. apply good_append_added; auto.
      apply added_key. discriminate.
    + intros E. apply bind_Ret_inv in E as (sub & Es & [= <-]).
      apply good_extend_added; [exact Hacc|]. eapply good_key, Hf, Es.
    + intros [= <-]. apply good_append_added; auto.
      apply added_key. discriminate.
  - revert E1. apply for_each_invariant; [|apply good_empty].
    intros acc [key cv] r' _ Hacc. unfold current_key_step.
    destruct (lookup key d) as [dv|].
    2:{ intros [= <-]. apply good_append_removed; auto. }
    assert (Hch : forall r0,
      (forall cm dm, cv = VDict cm -> dv = VDict dm -> False) ->
      (forall cl dl, cv = VList cl -> dv = VList dl -> False) ->
      (if negb (value_eqb cv dv)
       then Ret (append_changed acc
                   (changed_record (key_path p key) cv dv))
       else Ret acc) = Ret r0 -> good p r0).
    { intros r0 Hd Hl. destruct (value_eqb cv dv) eqn:Ev; cbn [negb];
        intros [= <-]; [exact Hacc|].
      apply good_append_changed; auto. }
    destruct cv as [cs|cm|cl], dv as [ds|dm|dl];
      try (apply Hch; intros; discriminate).
    + intros E. apply bind_Ret_inv in E as (sub & Es & [= <-]).
      apply good_extend; [exact Hacc|]. eapply good_key, Hf, Es.
    + intros E. apply bind_Ret_inv in E as (sub & Es & [= <-]).
      apply good_extend; [exact Hacc|].
      eapply good_key, compare_state_lists_body_good; eauto.
Qed.

Lemma compare_state_dicts_fuel_good n :
  forall c d p r, compare_state_dicts_fuel n c d p = Ret r -> good p r.
Proof.
  induction n as [|n IH]; cbn [compare_state_dicts_fuel]; [discriminate|].
  apply compare_state_dicts_body_good, IH.
Qed.

(** What holds of the records the two differs create at a path holds of
    every record of every diff they return. *)
Lemma compare_state_dicts_records c d p r :
  compare_state_dicts c d p = Ret r -> all_records Pr Pa Pc p r.
Proof. apply compare_state_dicts_fuel_good. Qed.

Lemma compare_state_lists_records cl dl p r :
  compare_state_lists cl dl p = Ret r -> all_records Pr Pa Pc p r.
Proof.
  apply compare_state_lists_body_good.
  intros c d q r'. apply compare_state_dicts_records.
Qed.

End RecordInduction.

(** ** Paths of the records *)

Lemma prefix_empty s : String.prefix "" s = true.
Proof. destruct s; reflexivity. Qed.

Lemma prefix_refl s : String.prefix s s = true.
Proof.
  induction s as [|a s IH]; cbn; [reflexivity|].
  destruct (ascii_dec a a); [exact IH|contradiction].
Qed.

Lemma prefix_append s t : String.prefix s (s ++ t) = true.
Proof.
  induction s as [|a s IH]; cbn; [apply prefix_empty|].
  destruct (ascii_dec a a); [exact IH|contradiction].
Qed.

Lemma prefix_trans a b c :
  String.prefix a b = true -> String.prefix b c = true ->
  String.prefix a c = true.
Proof.
  revert b c. induction a as [|x a IH]; intros b c Hab Hbc;
    [apply prefix_empty|].
  destruct b as [|y b]; [discriminate Hab|].
  destruct c as [|z c]; [discriminate Hbc|].
  cbn in *.
  destruct (ascii_dec x y) as [->|]; [|discriminate Hab].
  destruct (ascii_dec y z) as [->|]; [|discriminate Hbc].
  eapply IH; eassumption.
Qed.

Lemma prefix_key_path p k : String.prefix p (key_path p k) = true.
Proof. destruct p; [apply prefix_empty|]. apply prefix_append. Qed.

Lemma prefix_elem_path p s : String.prefix p (elem_path p s) = true.
Proof. apply prefix_append. Qed.

(** X1.  Every record of a diff that [compare_state_dicts] returns for the
    path prefix [p] has a path that starts with [p]. *)
Theorem record_paths_start_with_prefix (c d : mapping) (p : string) (r : diff) :
  compare_state_dicts c d p = Ret r ->
  Forall (fun x => String.prefix p (path x) = true)
         (removed r ++ added r ++ changed r).
Proof.
  intros E.
  destruct (compare_state_dicts_records
              (fun q x => String.prefix q (path x) = true)
              (fun q x => String.prefix q (path x) = true)
              (fun q x => String.prefix q (path x) = true))
    with (c := c) (d := d) (p := p) (r := r) as (H1 & H2 & H3); auto;
    try (intros; eapply prefix_trans; [|eassumption];
         auto using prefix_key_path, prefix_elem_path);
    try (intros; cbn [path removed_record added_record changed_record
                        message_record];
         auto using prefix_key_path, prefix_elem_path, prefix_refl).
  rewrite !Forall_app. auto.
Qed.

Lemma record_paths_start_with_prefix_witness :
  Forall (fun x => String.prefix "spec" (path x) = true)
         ([] ++ [added_record "spec.paused" (VScalar (SBool true))]
             ++ [changed_record "spec.replicas" (int 1) (int 3)]).
Proof.
  apply (@record_paths_start_with_prefix
           [("replicas", int 1)]
           [("replicas", int 3); ("paused", VScalar (SBool true))] "spec"
           (mk_diff [] [added_record "spec.paused" (VScalar (SBool true))]
                    [changed_record "spec.replicas" (int 1) (int 3)])).
  reflexivity.
Defined.

(** ** The shape of the records *)

(** X2.  In every diff that [compare_state_dicts] returns, a Removed record
    has no new value and holds either an old value or the message of the
    empty-list sentinel; an Added record has no old value and holds either a
    new value or the message of the other sentinel; a Changed record holds
    an old and a new value that differ under Python's [==] and that are
    neither two mappings nor two sequences. *)
Theorem record_shapes (c d : mapping) (p : string) (r : diff) :
  compare_state_dicts c d p = Ret r ->
  Forall (fun x =>
            new_value x = None /\
            ((exists v, old_value x = Some v /\ message x = None) \/
             (old_value x = None /\
              message x = Some "Current state list is empty")))
         (removed r) /\
  Forall (fun x =>
            old_value x = None /\
            ((exists v, new_value x = Some v /\ message x = None) \/
             (new_value x = None /\
              message x = Some "Desired state list is empty")))
         (added r) /\
  Forall (fun x =>
            exists o n,
              old_value x = Some o /\ new_value x = Some n /\
              message x = None /\ value_eqb o n = false /\
              (forall cm dm, o = VDict cm -> n = VDict dm -> False) /\
              (forall cl dl, o = VList cl -> n = VList dl -> False))
         (changed r).
Proof.
  intros E.
  apply (compare_state_dicts_records
           (fun _ x =>
              new_value x = None /\
              ((exists v, old_value x = Some v /\ message x = None) \/
               (old_value x = None /\
                message x = Some "Current state list is empty")))
           (fun _ x =>
              old_value x = None /\
              ((exists v, new_value x = Some v /\ message x = None) \/
               (new_value x = None /\
                message x = Some "Desired state list is empty")))
           (fun _ x =>
              exists o n,
                old_value x = Some o /\ new_value x = Some n /\
                message x = None /\ value_eqb o n = false /\
                (forall cm dm, o = VDict cm -> n = VDict dm -> False) /\
                (forall cl dl, o = VList cl -> n = VList dl -> False)))
    with (c := c) (d := d) (p := p); auto; intros; cbn; eauto 10.
Qed.

Lemma record_shapes_witness :
  Forall (fun x =>
            new_value x = None /\
            ((exists v, old_value x = Some v /\ message x = None) \/
             (old_value x = None /\
              message x = Some "Current state list is empty")))
         [removed_record "kind" (str "Deployment")] /\
  Forall (fun x =>
            old_value x = None /\
            ((exists v, new_value x = Some v /\ message x = None) \/
             (new_value x = None /\
              message x = Some "Desired state list is empty")))
         [added_record "spec.strategy.type" (str "Recreate")] /\
  Forall (fun x =>
            exists o n,
              old_value x = Some o /\ new_value x = Some n /\
              message x = None /\ value_eqb o n = false /\
              (forall cm dm, o = VDict cm -> n = VDict dm -> False) /\
              (forall cl dl, o = VList cl -> n = VList dl -> False))
         [changed_record "spec.replicas" (int 1) (int 3);
          changed_record "spec.containers[nginx].image" (str "v1") (str "v2")].
Proof.
  apply (@record_shapes manifest_nginx
           [("spec", VDict [("replicas", int 3);
                            ("containers", VList nginx_v2);
                            ("strategy", VDict [("type", str "Recreate")])])]
           ""
           (mk_diff [removed_record "kind" (str "Deployment")]
              [added_record "spec.strategy.type" (str "Recreate")]
              [changed_record "spec.replicas" (int 1) (int 3);
               changed_record "spec.containers[nginx].image"
                 (str "v1") (str "v2")])).
  reflexivity.
Defined.

(** ** Diffs against an empty document *)

Lemma flat_map_singleton (A B : Type) (g : A -> B) l :
  flat_map (fun x => [g x]) l = map g l.
Proof.
  induction l as [|x l IH]; cbn [flat_map map app]; [reflexivity|].
  rewrite IH. reflexivity.
Qed.

(** X3.  Against an empty desired mapping the diff is one Removed record per
    key of the current mapping, in the order of the keys, each holding the
    whole value of the key; nothing is added or changed and nothing is
    raised, whatever the values are. *)
Theorem diff_against_empty_desired (c : mapping) (p : string) :
  compare_state_dicts c [] p =
  Ret (mk_diff
         (map (fun kv : string * value =>
                 removed_record (key_path p (fst kv)) (snd kv)) c)
         [] []).
Proof.
  rewrite compare_state_dicts_loops.
  rewrite (for_each_flat
             (fun kv : string * value =>
                mk_diff [removed_record (key_path p (fst kv)) (snd kv)] [] []))
    by (try apply current_key_step_additive; intros [k v] _; reflexivity).
  cbn [bind for_each]. rewrite extend_empty_r.
  rewrite !(flat_map_nil (fun _ : string * value => @nil change_record))
    by reflexivity.
  rewrite (flat_map_singleton
             (fun x : string * value =>
                removed_record (key_path p (fst x)) (snd x))).
  reflexivity.
Qed.

(** X4.  Against an empty current mapping the diff is one Added record per
    leaf of the desired mapping, none of which holds a mapping; nothing is
    removed or changed and nothing is raised.  A key whose value is an empty
    mapping therefore leaves no record. *)
Theorem diff_against_empty_current (d : mapping) (p : string) :
  compare_state_dicts [] d p = Ret (mk_diff [] (leaf_records p (VDict d)) [])
  /\ Forall (fun x => exists v, new_value x = Some v /\
                                forall m, v <> VDict m)
            (leaf_records p (VDict d))
  /\ (forall k, leaf_records p (VDict [(k, VDict [])]) = []).
Proof.
  split; [apply compare_empty_current|]. split; [|reflexivity].
  revert p.
  enough (H : forall v p, Forall (fun x => exists w, new_value x = Some w /\
                                                     forall m, w <> VDict m)
                                 (leaf_records p v))
    by (intros p; apply H).
  induction v as [s|m IH|l IH] using value_nested_ind; intros p.
  - repeat constructor. exists (VScalar s). split; [reflexivity|discriminate].
  - cbn [leaf_records]. induction IH as [|[k w] rest Hw Hrest IHr];
      [constructor|].
    apply Forall_app. split; [apply Hw|apply IHr].
  - repeat constructor. exists (VList l). split; [reflexivity|discriminate].
Qed.

(** X5.  A key that is new in the desired mapping and whose value is an
    empty mapping is not reported at all: the result, diff or exception, is
    the one obtained without the key. *)
Theorem empty_mapping_added_silently (C D1 D2 : mapping) (P k : string) :
  lookup k C = None ->
  compare_state_dicts C (D1 ++ (k, VDict []) :: D2) P =
  compare_state_dicts C (D1 ++ D2) P.
Proof.
  intros Hk. rewrite !compare_state_dicts_loops.
  rewrite (for_each_ext
             (current_key_step compare_state_dicts (D1 ++ (k, VDict []) :: D2) P)
             (current_key_step compare_state_dicts (D1 ++ D2) P)).
  2:{ intros acc [key cv] Hin. unfold current_key_step.
      rewrite lookup_insert_other; [reflexivity|].
      eapply lookup_None_neq; eassumption. }
  destruct (for_each _ C empty_diff) as [d1| |]; cbn [bind]; try reflexivity.
  rewrite !for_each_app_additive by apply desired_key_step_additive.
  destruct (for_each _ D1 empty_diff) as [a1| |]; cbn [bind]; try reflexivity.
  cbn [for_each]. unfold desired_key_step at 1. unfold in_dict. rewrite Hk.
  cbn [negb]. rewrite compare_empty_current. cbn [bind leaf_records].
  reflexivity.
Qed.

Lemma empty_mapping_added_silently_witness :
  compare_state_dicts deployment
    (deployment ++ ("emptyDir", VDict []) :: []) "" =
  compare_state_dicts deployment (deployment ++ []) "".
Proof.
  apply (@empty_mapping_added_silently deployment deployment [] "" "emptyDir").
  reflexivity.
Defined.

(** ** The sequence differ matches by identity value *)

Lemma sd_set_In_key key item d k m :
  In (k, m) (sd_set key item d) ->
  (m = item /\ scalar_eqb k key = true) \/ In (k, m) d.
Proof.
  induction d as [|[k' w] d IH]; cbn [sd_set In].
  - intros [[= <- <-]|[]]. left. split; [reflexivity|apply scalar_eqb_refl].
  - destruct (scalar_eqb key k') eqn:E; cbn [In].
    + intros [[= <- <-]|H]; auto.
      left. split; [reflexivity|]. rewrite scalar_eqb_sym. exact E.
    + intros [H|H]; auto. destruct (IH H) as [?|?]; auto.
Qed.

Lemma build_entry_key uk l : forall acc d k m,
  for_each (state_dict_step uk) l acc = Ret d ->
  In (k, m) d ->
  In (k, m) acc \/
  exists k', In (VDict m) l /\ item_key uk (VDict m) = Ret (k', m) /\
             scalar_eqb k k' = true.
Proof.
  induction l as [|item l IH]; intros acc d k m; cbn [for_each].
  - intros [= <-]. auto.
  - intros H Hin. apply bind_Ret_inv in H as (acc' & Ha & H).
    unfold state_dict_step in Ha.
    apply bind_Ret_inv in Ha as ([key im] & Hi & [= <-]).
    pose proof (item_key_dict _ _ Hi) as ->.
    destruct (IH _ _ _ _ H Hin) as [Hacc|(k' & H1 & H2 & H3)].
    + cbn [fst snd] in Hacc. apply sd_set_In_key in Hacc as [[-> E]|Hacc]; auto.
      right. exists key. cbn [In]. auto.
    + right. exists k'. cbn [In]. auto.
Qed.

Lemma last_item_Some uk k l m :
  last_item uk k l = Some m ->
  exists k', In (VDict m) l /\ item_key uk (VDict m) = Ret (k', m) /\
             scalar_eqb k k' = true.
Proof.
  induction l as [|item l IH]; cbn [last_item]; [discriminate|].
  destruct (last_item uk k l) as [m'|].
  - intros [= ->]. destruct (IH eq_refl) as (k' & H1 & H2 & H3).
    exists k'. cbn [In]. auto.
  - destruct (item_key uk item) as [[k' im]| |] eqn:Ei; try discriminate.
    destruct (scalar_eqb k k') eqn:E; [|discriminate].
    intros [= ->]. pose proof (item_key_dict _ _ Ei) as ->.
    exists k'. cbn [In]. auto.
Qed.

Lemma last_item_found uk k l m k' :
  distinct_identities uk l ->
  In (VDict m) l -> item_key uk (VDict m) = Ret (k', m) ->
  scalar_eqb k k' = true ->
  last_item uk k l = Some m.
Proof.
  induction l as [|item l IH]; intros Hd Hin Hi E; [destruct Hin|].
  cbn [last_item].
  destruct (last_item uk k l) as [m'|] eqn:El.
  - destruct (last_item_Some _ _ _ El) as (k2 & H1 & H2 & H3).
    f_equal. apply (Hd m' m k2 k'); cbn [In]; auto.
    rewrite <- (scalar_eqb_trans _ _ k' H3). exact E.
  - destruct Hin as [->|Hin].
    + rewrite Hi, E. reflexivity.
    + assert (Hd' : distinct_identities uk l)
        by (intros m1 m2 k1 k2 I1 I2; apply Hd; right; assumption).
      discriminate (IH Hd' Hin Hi E).
Qed.

(** X6.  The Sequence Differ matches elements by identity value and not by
    position: when the desired sequence holds the elements of the current
    one in another order, all of them well-formed mappings that hold the
    identity key with a scalar value, no two of them with the same identity
    value, the diff is empty. *)
Theorem reordered_sequence_no_difference (uk : string) (first : value)
  (rest des : list value) (p : string) :
  identity_key_of first = Some uk ->
  forallb (has_scalar_key uk) (first :: rest) = true ->
  wf_value (VList (first :: rest)) = true ->
  distinct_identities uk (first :: rest) ->
  Permutation (first :: rest) des ->
  compare_state_lists (first :: rest) des p = Ret empty_diff.
Proof.
  intros Hk Hall Hwf Hdist Hperm.
  destruct des as [|dfirst drest].
  { apply Permutation_sym, Permutation_nil in Hperm. discriminate. }
  assert (Hall' : forallb (has_scalar_key uk) (dfirst :: drest) = true).
  { rewrite forallb_forall in Hall |- *. intros x Hx. apply Hall.
    eapply Permutation_in; [apply Permutation_sym, Hperm|exact Hx]. }
  assert (Hdist' : distinct_identities uk (dfirst :: drest)).
  { intros m1 m2 k1 k2 I1 I2. apply Hdist;
      (eapply Permutation_in; [apply Permutation_sym, Hperm|assumption]). }
  rewrite compare_state_lists_nonempty, (identity_key_selected _ Hk).
  cbn [bind].
  destruct (build_state_dict_returns _ _ Hall) as [cd Ec].
  destruct (build_state_dict_returns _ _ Hall') as [dd Ed].
  rewrite Ec, Ed. cbn [bind].
  assert (Hcd : forall k m, In (k, m) cd -> sd_get k dd = Some m).
  { intros k m Hin.
    destruct (build_entry_key _ _ _ _ _ Ec Hin) as [[]|(k' & H1 & H2 & H3)].
    erewrite build_last_item by exact Ed.
    erewrite last_item_found; eauto.
    eapply Permutation_in; [exact Hperm|exact H1]. }
  assert (Hdc : forall k m, In (k, m) dd -> sd_get k cd = Some m).
  { intros k m Hin.
    destruct (build_entry_key _ _ _ _ _ Ed Hin) as [[]|(k' & H1 & H2 & H3)].
    erewrite build_last_item by exact Ec.
    erewrite last_item_found; eauto.
    eapply Permutation_in; [apply Permutation_sym, Hperm|exact H1]. }
  rewrite !fold_left_skip.
  - apply for_each_skip. intros acc [key item] Hin.
    unfold changed_item_step. rewrite (Hcd _ _ Hin).
    unfold dict_eqb. rewrite value_eqb_refl; [reflexivity|].
    rewrite wf_value_list, forallb_forall in Hwf. apply Hwf.
    eapply build_state_dict_In; eassumption.
  - intros acc [key item] Hin. unfold added_item_step, removed_item_step, sd_mem.
    try rewrite (Hcd _ _ Hin); try rewrite (Hdc _ _ Hin); reflexivity.
  - intros acc [key item] Hin. unfold added_item_step, removed_item_step, sd_mem.
    try rewrite (Hcd _ _ Hin); try rewrite (Hdc _ _ Hin); reflexivity.
Qed.

Lemma reordered_sequence_no_difference_witness :
  compare_state_lists
    [VDict [("name", str "nginx"); ("image", str "v1")];
     VDict [("name", str "sidecar"); ("image", str "v7")]]
    [VDict [("name", str "sidecar"); ("image", str "v7")];
     VDict [("name", str "nginx"); ("image", str "v1")]]
    "containers" = Ret empty_diff.
Proof.
  apply (@reordered_sequence_no_difference "name").
  - reflexivity.
  - reflexivity.
  - reflexivity.
  - intros m1 m2 k1 k2 [[= <-]|[[= <-]|[]]] [[= <-]|[[= <-]|[]]] [= <-] [= <-];
      (reflexivity || discriminate).
  - apply perm_swap.
Defined.

(** ** Exceptions of the sequence differ *)

Lemma build_state_dict_missing_key uk l1 m l2 :
  forallb (has_scalar_key uk) l1 = true ->
  lookup uk m = None ->
  build_state_dict uk (l1 ++ VDict m :: l2) = Raise KeyError.
Proof.
  intros Hall Hm. rewrite build_state_dict_step, for_each_app.
  destruct (build_state_dict_returns _ _ Hall) as [d Hd].
  rewrite build_state_dict_step in Hd. rewrite Hd. cbn [bind for_each].
  unfold state_dict_step at 1. cbn [item_key]. rewrite Hm. reflexivity.
Qed.

(** X7.  When both sequences are non-empty and an element of the current
    sequence is a mapping without the identity key, all elements before it
    holding the key with a scalar value, the Sequence Differ raises
    [KeyError]; it does the same when the current sequence is keyed
    throughout and such an element stands in the desired sequence. *)
Theorem missing_identity_key_raises (uk : string) (first : value)
  (rest l1 l2 : list value) (m : mapping) (p : string) :
  select_unique_key first = Ret uk ->
  forallb (has_scalar_key uk) l1 = true ->
  lookup uk m = None ->
  (forall dfirst drest,
      first :: rest = (l1 ++ VDict m :: l2)%list ->
      compare_state_lists (first :: rest) (dfirst :: drest) p = Raise KeyError)
  /\ (forallb (has_scalar_key uk) (first :: rest) = true ->
      compare_state_lists (first :: rest) (l1 ++ VDict m :: l2) p =
      Raise KeyError).
Proof.
  intros Hs Hall Hm. split.
  - intros dfirst drest E.
    rewrite compare_state_lists_nonempty, Hs. cbn [bind].
    rewrite E, build_state_dict_missing_key by assumption. reflexivity.
  - intros Hc. destruct (l1 ++ VDict m :: l2)%list as [|dfirst drest] eqn:E.
    { destruct l1; discriminate. }
    rewrite compare_state_lists_nonempty, Hs. cbn [bind].
    destruct (build_state_dict_returns _ _ Hc) as [cd ->]. cbn [bind].
    rewrite <- E, build_state_dict_missing_key by assumption. reflexivity.
Qed.

Lemma missing_identity_key_raises_witness :
  compare_state_lists
    [VDict [("name", str "nginx")]; VDict [("image", str "v1")]]
    [VDict [("name", str "nginx")]] "containers" = Raise KeyError.
Proof.
  apply (proj1 (@missing_identity_key_raises "name"
                  (VDict [("name", str "nginx")])
                  [VDict [("image", str "v1")]]
                  [VDict [("name", str "nginx")]] []
                  [("image", str "v1")] "containers"
                  eq_refl eq_refl eq_refl)).
  reflexivity.
Defined.

Lemma scalar_first_raises f s rest dfirst drest p :
  exists e,
    compare_state_lists_body f (VScalar s :: rest) (dfirst :: drest) p = Raise e.
Proof.
  unfold compare_state_lists_body, select_unique_key.
  destruct s as [|b|z|s]; cbn [contains_name bind]; eauto.
  destruct (String.index 0 "name" s); cbn [first_key bind]; eauto.
  exists TypeError. reflexivity.
Qed.

Lemma for_each_Ret_each (A B : Type) (step : B -> A -> result B) l :
  forall acc r x, for_each step l acc = Ret r -> In x l ->
                  exists acc' r', step acc' x = Ret r'.
Proof.
  induction l as [|y l IH]; intros acc r x E Hin; [destruct Hin|].
  cbn [for_each] in E. apply bind_Ret_inv in E as (acc' & E1 & E2).
  destruct Hin as [->|Hin]; eauto.
Qed.

(** X8.  A sequence of scalars cannot be diffed: when the two documents hold
    non-empty sequences under the same key and the first element of the
    current one is a scalar (a string, a number, a boolean or null), the
    whole call of [compare_state_dicts] raises an exception. *)
Theorem scalar_sequence_raises (C D : mapping) (P k : string) (s : scalar)
  (rest : list value) (dfirst : value) (drest : list value) :
  lookup k C = Some (VList (VScalar s :: rest)) ->
  lookup k D = Some (VList (dfirst :: drest)) ->
  exists e, compare_state_dicts C D P = Raise e.
Proof.
  intros HC HD.
  destruct (compare_state_dicts C D P) as [r|e|] eqn:E; eauto.
  - exfalso. rewrite compare_state_dicts_loops in E.
    apply bind_Ret_inv in E as (d1 & E1 & _).
    destruct (for_each_Ret_each _ _ _ _ E1 (lookup_In _ _ HC))
      as (acc & r' & Hstep).
    unfold current_key_step in Hstep. rewrite HD in Hstep.
    destruct (scalar_first_raises compare_state_dicts s rest dfirst drest
                (key_path P k)) as [e He].
    rewrite He in Hstep. discriminate Hstep.
  - exfalso. exact (compare_state_dicts_terminates _ _ _ E).
Qed.

Lemma scalar_sequence_raises_witness :
  exists e,
    compare_state_dicts
      [("kind", str "Pod"); ("args", VList [str "--port"; str "80"])]
      [("kind", str "Pod"); ("args", VList [str "--port"; str "8080"])]
      "" = Raise e.
Proof.
  apply (@scalar_sequence_raises
           [("kind", str "Pod"); ("args", VList [str "--port"; str "80"])]
           [("kind", str "Pod"); ("args", VList [str "--port"; str "8080"])]
           "" "args" (SStr "--port") [str "80"] (str "--port") [str "8080"]);
    reflexivity.
Defined.

(** ** Elements without a partner *)

Lemma removed_items_fold p dd cd : forall acc,
  fold_left (removed_item_step p dd) cd acc =
  mk_diff
    (removed acc ++
     map (fun e : scalar * mapping =>
            removed_record (elem_path p (fst e)) (VDict (snd e)))
         (filter (fun e : scalar * mapping => negb (sd_mem (fst e) dd)) cd))
    (added acc) (changed acc).
Proof.
  induction cd as [|[k m] cd IH]; intros acc; cbn [fold_left filter map].
  - rewrite app_nil_r. destruct acc; reflexivity.
  - rewrite IH. unfold removed_item_step. cbn [fst snd].
    destruct (negb (sd_mem k dd)); cbn [map removed added changed append_removed].
    + rewrite <- app_assoc. reflexivity.
    + reflexivity.
Qed.

Lemma added_items_fold p cd dd : forall acc,
  fold_left (added_item_step p cd) dd acc =
  mk_diff
    (removed acc)
    (added acc ++
     map (fun e : scalar * mapping =>
            added_record (elem_path p (fst e)) (VDict (snd e)))
         (filter (fun e : scalar * mapping => negb (sd_mem (fst e) cd)) dd))
    (changed acc).
Proof.
  induction dd as [|[k m] dd IH]; intros acc; cbn [fold_left filter map].
  - rewrite app_nil_r. destruct acc; reflexivity.
  - rewrite IH. unfold added_item_step. cbn [fst snd].
    destruct (negb (sd_mem k cd)); cbn [map removed added changed append_added].
    + rewrite <- app_assoc. reflexivity.
    + reflexivity.
Qed.

(** X9.  When the Sequence Differ returns on two non-empty sequences, its
    Removed list starts with one record per identity value of the current
    sequence that no desired element carries, at path [p[value]] and
    holding the whole element, in the order of the current sequence; its
    Added list starts likewise with the desired elements that have no
    partner; the records of the nested comparisons of the partners follow,
    and they alone make up the Changed list. *)
Theorem sequence_diff_structure (first : value) (rest : list value)
  (dfirst : value) (drest : list value) (p : string) (r : diff) :
  compare_state_lists (first :: rest) (dfirst :: drest) p = Ret r ->
  exists uk cd dd nested,
    select_unique_key first = Ret uk /\
    build_state_dict uk (first :: rest) = Ret cd /\
    build_state_dict uk (dfirst :: drest) = Ret dd /\
    for_each (changed_item_step compare_state_dicts p dd) cd empty_diff =
      Ret nested /\
    removed r =
      (map (fun e : scalar * mapping =>
              removed_record (elem_path p (fst e)) (VDict (snd e)))
           (filter (fun e : scalar * mapping => negb (sd_mem (fst e) dd)) cd)
       ++ removed nested)%list /\
    added r =
      (map (fun e : scalar * mapping =>
              added_record (elem_path p (fst e)) (VDict (snd e)))
           (filter (fun e : scalar * mapping => negb (sd_mem (fst e) cd)) dd)
       ++ added nested)%list /\
    changed r = changed nested.
Proof.
  rewrite compare_state_lists_nonempty. intros E.
  apply bind_Ret_inv in E as (uk & Euk & E).
  apply bind_Ret_inv in E as (cd & Ecd & E).
  apply bind_Ret_inv in E as (dd & Edd & E).
  rewrite for_each_additive in E by apply changed_item_step_additive.
  apply bind_Ret_inv in E as (nested & En & [= <-]).
  exists uk, cd, dd, nested.
  rewrite added_items_fold, removed_items_fold.
  repeat split; auto.
Qed.

Lemma sequence_diff_structure_witness :
  exists uk cd dd nested,
    select_unique_key (VDict [("name", str "a"); ("v", int 1)]) = Ret uk /\
    build_state_dict uk
      [VDict [("name", str "a"); ("v", int 1)]; VDict [("name", str "b")]]
      = Ret cd /\
    build_state_dict uk
      [VDict [("name", str "c")]; VDict [("name", str "a"); ("v", int 2)]]
      = Ret dd /\
    for_each (changed_item_step compare_state_dicts "l" dd) cd empty_diff =
      Ret nested /\
    removed (mk_diff [removed_record "l[b]" (VDict [("name", str "b")])]
               [added_record "l[c]" (VDict [("name", str "c")])]
               [changed_record "l[a].v" (int 1) (int 2)]) =
      (map (fun e : scalar * mapping =>
              removed_record (elem_path "l" (fst e)) (VDict (snd e)))
           (filter (fun e : scalar * mapping => negb (sd_mem (fst e) dd)) cd)
       ++ removed nested)%list /\
    added (mk_diff [removed_record "l[b]" (VDict [("name", str "b")])]
             [added_record "l[c]" (VDict [("name", str "c")])]
             [changed_record "l[a].v" (int 1) (int 2)]) =
      (map (fun e : scalar * mapping =>
              added_record (elem_path "l" (fst e)) (VDict (snd e)))
           (filter (fun e : scalar * mapping => negb (sd_mem (fst e) cd)) dd)
       ++ added nested)%list /\
    changed (mk_diff [removed_record "l[b]" (VDict [("name", str "b")])]
               [added_record "l[c]" (VDict [("name", str "c")])]
               [changed_record "l[a].v" (int 1) (int 2)]) = changed nested.
Proof.
  apply (@sequence_diff_structure
           (VDict [("name", str "a"); ("v", int 1)])
           [VDict [("name", str "b")]]
           (VDict [("name", str "c")])
           [VDict [("name", str "a"); ("v", int 2)]] "l").
  reflexivity.
Defined.

(** ** The order of the mismatch report *)

Lemma dict_set_absent (V : Type) k (v : V) d :
  lookup k d = None -> dict_set k v d = (d ++ [(k, v)])%list.
Proof.
  induction d as [|[k' w] d IH]; cbn [lookup dict_set app]; [reflexivity|].
  destruct (String.eqb k k'); [discriminate|].
  intros H. rewrite IH by exact H. reflexivity.
Qed.

Lemma mismatch_fold_in_order c d fs : forall acc,
  NoDup fs -> (forall f, In f fs -> lookup f acc = None) ->
  fold_left (mismatch_step c d) fs acc =
  (acc ++ map (fun f => (f, negb (value_eqb (dict_get f c) (dict_get f d))))
             fs)%list.
Proof.
  induction fs as [|g fs IH]; intros acc Hnd Hacc; cbn [fold_left map].
  - rewrite app_nil_r. reflexivity.
  - inversion Hnd as [|? ? Hg Hnd']; subst.
    unfold mismatch_step at 2.
    rewrite dict_set_absent by (apply Hacc; left; reflexivity).
    rewrite IH; [rewrite <- app_assoc; reflexivity|exact Hnd'|].
    intros f Hf. rewrite lookup_app, (Hacc f (or_intror Hf)). cbn [lookup].
    destruct (String.eqb f g) eqn:E; [|reflexivity].
    apply String.eqb_eq in E. subst. contradiction.
Qed.

(** X10.  For a list of pairwise different field names, [check_mismatches]
    reports the fields in the order in which they were requested, each with
    the outcome of comparing [current.get(field)] with
    [desired.get(field)]. *)
Theorem check_mismatches_in_order (c d : mapping) (fs : list string) :
  NoDup fs ->
  check_mismatches c d fs =
  map (fun f => (f, negb (value_eqb (dict_get f c) (dict_get f d)))) fs.
Proof.
  intros Hnd. rewrite check_mismatches_fold, mismatch_fold_in_order; auto.
Qed.

Lemma check_mismatches_in_order_witness :
  check_mismatches [("kind", str "Deployment"); ("apiVersion", str "apps/v1")]
    [("kind", str "StatefulSet"); ("apiVersion", str "apps/v1")]
    ["kind"; "apiVersion"] =
  map (fun f =>
         (f, negb (value_eqb
                     (dict_get f [("kind", str "Deployment");
                                  ("apiVersion", str "apps/v1")])
                     (dict_get f [("kind", str "StatefulSet");
                                  ("apiVersion", str "apps/v1")]))))
      ["kind"; "apiVersion"].
Proof.
  apply (@check_mismatches_in_order
           [("kind", str "Deployment"); ("apiVersion", str "apps/v1")]
           [("kind", str "StatefulSet"); ("apiVersion", str "apps/v1")]
           ["kind"; "apiVersion"]).
  repeat constructor; cbn; intuition discriminate.
Defined.

(** ** The summary of a diff *)

Section SummaryFacts.

Variable yaml_dump : value -> string.
Variable yaml_dump_block : value -> string.
Variable py_format : value -> string.

Lemma map_result_Ret (A B : Type) (f : A -> result B) (P : A -> B -> Prop) l :
  (forall x y, In x l -> f x = Ret y -> P x y) ->
  forall ys, map_result f l = Ret ys -> Forall2 P l ys.
Proof.
  induction l as [|x l IH]; intros H ys; cbn [map_result].
  - intros [= <-]. constructor.
  - intros E. apply bind_Ret_inv in E as (y & Ey & E).
    apply bind_Ret_inv in E as (ys' & Eys & [= <-]).
    constructor.
    + apply H; [left; reflexivity|exact Ey].
    + apply IH; [|exact Eys]. intros; apply H; auto. right; assumption.
Qed.

Lemma map_result_raises (A B : Type) (f : A -> result B) e l :
  (forall x, In x l -> f x = Raise e \/ exists y, f x = Ret y) ->
  (exists x, In x l /\ f x = Raise e) ->
  map_result f l = Raise e.
Proof.
  induction l as [|x l IH]; intros Hall [z [Hin Hz]]; [destruct Hin|].
  cbn [map_result].
  destruct (Hall x (or_introl eq_refl)) as [->|[y Hy]]; [reflexivity|].
  rewrite Hy. cbn [bind]. rewrite IH; [reflexivity| |].
  - intros; apply Hall; right; assumption.
  - destruct Hin as [->|Hin]; [congruence|eauto].
Qed.

Lemma added_line_cases x :
  added_line yaml_dump_block x = Raise KeyError \/
  exists y, added_line yaml_dump_block x = Ret y.
Proof. unfold added_line. destruct (new_value x); eauto. Qed.

Lemma prefix_path_line p t :
  String.prefix (p ++ ": ") (p ++ ": " ++ t) = true.
Proof. rewrite <- append_assoc. apply prefix_append. Qed.

Lemma removed_lines_prefix l :
  Forall2 (fun x line => String.prefix (path x ++ ": ") line = true)
          l (map (removed_line yaml_dump) l).
Proof.
  induction l as [|x l IH]; cbn [map]; constructor; [|exact IH].
  unfold removed_line. apply prefix_path_line.
Qed.

(** X11.  When [get_diff_summary] returns, the summary has the key
    ["removed"] exactly when the diff has Removed records, and likewise for
    ["added"] and ["changed"], so it is empty exactly when the diff is; under
    each key there is one line per record, in the order of the records, and
    the line starts with the path of its record followed by a colon and a
    space. *)
Theorem summary_follows_diff (d : diff) (s : list (string * list string)) :
  get_diff_summary yaml_dump yaml_dump_block py_format d = Ret s ->
  (s = [] <-> removed d = [] /\ added d = [] /\ changed d = []) /\
  (forall name records,
      In (name, records)
         [("removed", removed d); ("added", added d); ("changed", changed d)] ->
      match lookup name s with
      | None => records = []
      | Some lines =>
          records <> [] /\
          Forall2 (fun x line => String.prefix (path x ++ ": ") line = true)
                  records lines
      end).
Proof.
  unfold get_diff_summary. intros E.
  apply bind_Ret_inv in E as (s1 & E1 & E2).
  assert (Hr : Forall2 (fun x line => String.prefix (path x ++ ": ") line = true)
                       (removed d) (map (removed_line yaml_dump) (removed d))).
  { apply removed_lines_prefix. }
  assert (Ha : forall lines,
             map_result (added_line yaml_dump_block) (added d) = Ret lines ->
             Forall2 (fun x line => String.prefix (path x ++ ": ") line = true)
                     (added d) lines).
  { apply map_result_Ret. intros x y _. unfold added_line.
    destruct (new_value x); [|discriminate]. intros [= <-].
    apply prefix_path_line. }
  assert (Hc : forall lines,
             map_result (changed_line py_format) (changed d) = Ret lines ->
             Forall2 (fun x line => String.prefix (path x ++ ": ") line = true)
                     (changed d) lines).
  { apply map_result_Ret. intros x y _. unfold changed_line.
    destruct (old_value x); [|discriminate].
    destruct (new_value x); [|discriminate]. intros [= <-].
    exact (prefix_path_line (path x)
             ("old value: " ++ py_format v ++ ", new value: " ++ py_format v0)). }
  destruct (removed d) as [|r0 rs] eqn:Er;
    destruct (added d) as [|a0 as'] eqn:Ea;
    destruct (changed d) as [|c0 cs] eqn:Ec;
    cbn [dict_set] in E1;
    try (apply bind_Ret_inv in E1 as (la & Ela & E1); specialize (Ha _ Ela));
    injection E1 as <-;
    try (apply bind_Ret_inv in E2 as (lc & Elc & E2); specialize (Hc _ Elc));
    injection E2 as <-;
    (split;
     [ split; [intros H; try discriminate H; auto
              |intros (H1 & H2 & H3); try discriminate; reflexivity]
     | intros name records [[= <- <-]|[[= <- <-]|[[= <- <-]|[]]]];
       cbn; try reflexivity; (split; [discriminate|assumption]) ]).
Qed.

(** X12.  [get_diff_summary] raises [KeyError] on every diff whose Added
    list holds a record without a new value, and the differ produces such a
    diff: when the desired document empties a sequence that is non-empty in
    the current one, the diff is returned and its summary raises.  The
    sentinel of an empty current sequence is summarised instead, with the
    rendering of the empty string. *)
Theorem summary_raises_on_emptied_sequence :
  (forall d x,
      In x (added d) -> new_value x = None ->
      get_diff_summary yaml_dump yaml_dump_block py_format d = Raise KeyError)
  /\ (forall k x xs p,
         (r <- compare_state_dicts [(k, VList (x :: xs))] [(k, VList [])] p ;;
          get_diff_summary yaml_dump yaml_dump_block py_format r) =
         Raise KeyError)
  /\ (forall k l p,
         (r <- compare_state_dicts [(k, VList [])] [(k, VList l)] p ;;
          get_diff_summary yaml_dump yaml_dump_block py_format r) =
         Ret [("removed",
               [key_path p k ++ ": " ++ yaml_dump (VScalar (SStr ""))]%string)]).
Proof.
  assert (H1 : forall d x,
    In x (added d) -> new_value x = None ->
    get_diff_summary yaml_dump yaml_dump_block py_format d = Raise KeyError).
  { intros d x Hin Hx. unfold get_diff_summary.
    destruct (added d) as [|a0 as'] eqn:Ea; [destruct Hin|].
    rewrite (@map_result_raises _ _ (added_line yaml_dump_block) KeyError).
    - reflexivity.
    - intros; apply added_line_cases.
    - exists x. split; [exact Hin|]. unfold added_line. rewrite Hx. reflexivity. }
  split; [exact H1|split].
  - intros k x xs p. rewrite compare_state_dicts_loops.
    cbn [for_each]. unfold current_key_step at 1. cbn [lookup].
    rewrite String.eqb_refl.
    change (compare_state_lists_body compare_state_dicts (x :: xs) []
              (key_path p k))
      with (Ret (append_added empty_diff
                   (message_record (key_path p k)
                      "Desired state list is empty"))).
    cbn [bind]. unfold desired_key_step, in_dict. cbn [lookup].
    rewrite String.eqb_refl. cbn [negb bind].
    eapply H1; [left; reflexivity|reflexivity].
  - intros k l p. rewrite compare_state_dicts_loops.
    cbn [for_each]. unfold current_key_step at 1. cbn [lookup].
    rewrite String.eqb_refl.
    change (compare_state_lists_body compare_state_dicts [] l (key_path p k))
      with (Ret (append_removed empty_diff
                   (message_record (key_path p k)
                      "Current state list is empty"))).
    cbn [bind]. unfold desired_key_step, in_dict. cbn [lookup].
    rewrite String.eqb_refl. reflexivity.
Qed.

End SummaryFacts.

Lemma summary_follows_diff_witness :
  ([("added", ["spec.replicas: 3"])] = []
   <-> removed (mk_diff [] [added_record "spec.replicas" (int 3)] []) = [] /\
       added (mk_diff [] [added_record "spec.replicas" (int 3)] []) = [] /\
       changed (mk_diff [] [added_record "spec.replicas" (int 3)] []) = []).
Proof.
  apply (@summary_follows_diff (fun _ => "3") (fun _ => "3") (fun _ => "3")
           (mk_diff [] [added_record "spec.replicas" (int 3)] [])
           [("added", ["spec.replicas: 3"])]).
  reflexivity.
Defined.

Lemma summary_raises_on_emptied_sequence_witness :
  get_diff_summary (fun _ => "") (fun _ => "") (fun _ => "")
    (mk_diff [] [message_record "spec.containers"
                   "Desired state list is empty"] []) = Raise KeyError.
Proof.
  apply (proj1 (summary_raises_on_emptied_sequence
                  (fun _ => "") (fun _ => "") (fun _ => ""))
           (mk_diff [] [message_record "spec.containers"
                          "Desired state list is empty"] [])
           (message_record "spec.containers" "Desired state list is empty")).
  - left. reflexivity.
  - reflexivity.
Defined.

(** ** The presenter *)

Lemma split_colon_first a rest :
  colon_free a = true ->
  split_colon (a ++ String ":"%char rest) = (a, Some rest).
Proof.
  induction a as [|ch a IH]; cbn [append split_colon colon_free].
  - reflexivity.
  - intros H. apply andb_prop in H as [Hc Ha].
    apply negb_true_iff in Hc. rewrite Hc, (IH Ha). reflexivity.
Qed.

(** X13.  [item.split(":", 1)], with which [format_changes] takes a summary
    line apart, cuts at the first colon of the line.  A line built by
    [get_diff_summary] for a Removed record therefore gives back the path of
    the record when the path holds no colon, and only the part of the path
    before its first colon otherwise. *)
Theorem summary_line_split (yaml_dump : value -> string) :
  (forall a rest,
      colon_free a = true ->
      split_colon (a ++ ":" ++ rest) = (a, Some rest))
  /\ (forall x,
         colon_free (path x) = true ->
         fst (split_colon (removed_line yaml_dump x)) = path x)
  /\ (forall a b o,
         colon_free a = true ->
         fst (split_colon
                (removed_line yaml_dump
                   (mk_record (a ++ ":" ++ b) o None None))) = a).
Proof.
  repeat split.
  - intros a rest Ha. apply split_colon_first, Ha.
  - intros x Hx. unfold removed_line.
    change (path x ++ ": " ++ ?t)%string
      with (path x ++ String ":"%char (" " ++ t))%string.
    rewrite split_colon_first by exact Hx. reflexivity.
  - intros a b o Ha. unfold removed_line. cbn [path].
    rewrite append_assoc.
    change (a ++ (":" ++ b) ++ ?t)%string
      with (a ++ String ":"%char (b ++ t))%string.
    rewrite split_colon_first by exact Ha. reflexivity.
Qed.

Lemma summary_line_split_witness :
  fst (split_colon
         (removed_line (fun _ => "x")
            (mk_record ("containers[nginx" ++ ":" ++ "1.16]")
               (Some (str "x")) None None))) = "containers[nginx".
Proof.
  apply (proj2 (proj2 (summary_line_split (fun _ => "x")))
           "containers[nginx" "1.16]" (Some (str "x"))).
  reflexivity.
Defined.

Section PresenterFacts.

Variable yaml_dump : value -> string.
Variable yaml_dump_block : value -> string.
Variable py_format : value -> string.

(** X14.  [print_diff] logs ["No differences found."] exactly when the diff
    of the two documents is returned with its three lists empty. *)
Theorem no_differences_iff_empty_diff (c d : mapping) :
  reports_no_differences yaml_dump yaml_dump_block py_format c d = Ret true
  <-> compare_state_dicts c d "" = Ret empty_diff.
Proof.
  unfold reports_no_differences. split.
  - intros E. apply bind_Ret_inv in E as (r & Er & E).
    apply bind_Ret_inv in E as (s & Es & [= E]).
    rewrite Er. f_equal. unfold get_diff_summary in Es.
    destruct r as [rr ra rc]. cbn [removed added changed] in Es.
    apply bind_Ret_inv in Es as (s1 & E1 & E2).
    destruct rr as [|r0 rs]; destruct ra as [|a0 as'];
      destruct rc as [|c0 cs]; cbn [dict_set] in E1;
      try reflexivity;
      try (apply bind_Ret_inv in E1 as (la & Ela & E1);
           cbn [map_result] in Ela;
           apply bind_Ret_inv in Ela as (y & _ & Ela);
           apply bind_Ret_inv in Ela as (ys & _ & [= <-]));
      injection E1 as <-;
      try (apply bind_Ret_inv in E2 as (lc & Elc & E2);
           cbn [map_result] in Elc;
           apply bind_Ret_inv in Elc as (z & _ & Elc);
           apply bind_Ret_inv in Elc as (zs & _ & [= <-]));
      injection E2 as <-; discriminate E.
  - intros ->. reflexivity.
Qed.

End PresenterFacts.

(** ** The order of the keys of the desired document *)

Lemma lookup_permuted (V : Type) k (d d' : list (string * V)) :
  Permutation d d' -> unique_keys d = true -> unique_keys d' = true ->
  lookup k d' = lookup k d.
Proof.
  intros Hp Hu Hu'.
  destruct (lookup k d) as [v|] eqn:E.
  - apply lookup_unique; [exact Hu'|].
    eapply Permutation_in; [exact Hp|]. apply lookup_In, E.
  - destruct (lookup k d') as [v|] eqn:E'; [|reflexivity].
    apply lookup_In in E'.
    apply (Permutation_in _ (Permutation_sym Hp)) in E'.
    apply in_dict_In in E'. unfold in_dict in E'. rewrite E in E'.
    discriminate E'.
Qed.

Lemma desired_key_step_returns c p kv :
  exists r, desired_key_step compare_state_dicts c p empty_diff kv = Ret r.
Proof.
  destruct kv as [k v]. unfold desired_key_step.
  destruct (negb (in_dict k c)); [|eauto].
  destruct v as [s|dm|l]; eauto.
  rewrite compare_empty_current. cbn [bind]. eauto.
Qed.

(** X15.  The order of the keys of the desired mapping only decides the
    order of the Added records: for two desired mappings with the same
    entries in different orders, [compare_state_dicts] raises the same
    exception or returns diffs with the same Removed and Changed lists and
    with the same Added records up to their order. *)
Theorem desired_key_order (c d d' : mapping) (p : string) :
  Permutation d d' -> unique_keys d = true -> unique_keys d' = true ->
  (forall e, compare_state_dicts c d p = Raise e ->
             compare_state_dicts c d' p = Raise e) /\
  (forall r, compare_state_dicts c d p = Ret r ->
             exists r', compare_state_dicts c d' p = Ret r' /\
                        removed r' = removed r /\ changed r' = changed r /\
                        Permutation (added r) (added r')).
Proof.
  intros Hp Hu Hu'. rewrite !compare_state_dicts_loops.
  rewrite (for_each_ext (current_key_step compare_state_dicts d' p)
                        (current_key_step compare_state_dicts d p)).
  2:{ intros acc [key cv] _. unfold current_key_step.
      rewrite (lookup_permuted key Hp Hu Hu'). reflexivity. }
  set (c2 := fun x => ret_or_empty
                        (desired_key_step compare_state_dicts c p empty_diff x)).
  assert (E2 : forall l,
    for_each (desired_key_step compare_state_dicts c p) l empty_diff =
    Ret (mk_diff (flat_map (fun x => removed (c2 x)) l)
                 (flat_map (fun x => added (c2 x)) l)
                 (flat_map (fun x => changed (c2 x)) l))).
  { intros l. apply for_each_flat; [apply desired_key_step_additive|].
    intros x _. destruct (desired_key_step_returns c p x) as [r Hr].
    eapply ret_or_empty_Ret, Hr. }
  rewrite !E2.
  destruct (for_each _ c empty_diff) as [d1| |]; cbn [bind]; split;
    try discriminate; auto.
  intros r [= <-]. eexists. split; [reflexivity|].
  pose proof (desired_loop_only_added _ _ _ _ (E2 d)) as [R1 C1].
  pose proof (desired_loop_only_added _ _ _ _ (E2 d')) as [R2 C2].
  cbn [removed changed] in R1, C1, R2, C2.
  cbn [extend removed added changed]. rewrite R1, C1, R2, C2.
  repeat split. apply Permutation_app_head, Permutation_flat_map, Hp.
Qed.

Lemma desired_key_order_witness :
  exists r',
    compare_state_dicts deployment
      [("spec", VDict [("replicas", int 3)]); ("kind", str "Deployment");
       ("apiVersion", str "apps/v1")] "" = Ret r' /\
    removed r' = removed (mk_diff [] [added_record "apiVersion" (str "apps/v1");
                                      added_record "spec.replicas" (int 3)] [])
    /\ changed r' = changed (mk_diff [] [added_record "apiVersion" (str "apps/v1");
                                         added_record "spec.replicas" (int 3)] [])
    /\ Permutation
         (added (mk_diff [] [added_record "apiVersion" (str "apps/v1");
                             added_record "spec.replicas" (int 3)] []))
         (added r').
Proof.
  refine (proj2 (@desired_key_order deployment
                   [("kind", str "Deployment"); ("apiVersion", str "apps/v1");
                    ("spec", VDict [("replicas", int 3)])]
                   [("spec", VDict [("replicas", int 3)]);
                    ("kind", str "Deployment"); ("apiVersion", str "apps/v1")]
                   "" _ eq_refl eq_refl) _ eq_refl).
  apply Permutation_sym.
  apply (Permutation_cons_app [("kind", str "Deployment");
                               ("apiVersion", str "apps/v1")] []).
  rewrite app_nil_r. apply Permutation_refl.
Defined.
